(** * Reconciliation of the IPVS table with the cluster state (package ipvs)

    A shallow embedding of [ipvs/ipvs.go]: the [Sync] pass, its helpers and
    [Flush], written as programs over the calls they make (the mutex, the
    state provider, the go-set iterators and the kernel adapter), together
    with a handler that runs those calls against a model of the kernel
    table. *)

From stdpp Require Import base gmap sets list strings.

#[local] Set Warnings "-clear-no-such-hyp".


(** ** Domain types (package types) *)

(** Modelled from the spec: the declaration of [types.Service] is not part of
    the sources at hand. Section 3 of the specification lists its attributes:
    host, port, transport protocol, scheduling algorithm, name and mode. *)
Module Service.
Record t : Type := mk {
    Name : string;
    Host : string;
    Port : Z;
    Protocol : string;
    Scheduler : string;
    Mode : string
  }.

(** The assignments [s.Name = v] and [s.Mode = v] on a local copy. *)
Definition set_Name (v : string) (s : t) : t :=
    mk v (Host s) (Port s) (Protocol s) (Scheduler s) (Mode s).
Definition set_Mode (v : string) (s : t) : t :=
    mk (Name s) (Host s) (Port s) (Protocol s) (Scheduler s) v.

Definition to_tuple (s : t) :=
    (Name s, Host s, Port s, Protocol s, Scheduler s, Mode s).
Definition of_tuple (p : string * string * Z * string * string * string) : t :=
    let '(n, h, p, pr, sc, m) := p in mk n h p pr sc m.

#[global] Instance eq_dec : EqDecision t.
Proof. solve_decision. Defined.
#[global] Instance countable : Countable t.
Proof. apply (inj_countable' to_tuple of_tuple). by intros []. Defined.
End Service.

(** Modelled from the spec: the declaration of [types.Destination] is not part
    of the sources at hand. Section 3 of the specification lists its
    attributes: host, port, weight, forwarding mode, name and the reference
    to the owning service. *)
Module Destination.
Record t : Type := mk {
    Name : string;
    Host : string;
    Port : Z;
    Weight : Z;
    Mode : string;
    ServiceId : string
  }.

Definition set_Name (v : string) (d : t) : t :=
    mk v (Host d) (Port d) (Weight d) (Mode d) (ServiceId d).
Definition set_ServiceId (v : string) (d : t) : t :=
    mk (Name d) (Host d) (Port d) (Weight d) (Mode d) v.

Definition to_tuple (d : t) :=
    (Name d, Host d, Port d, Weight d, Mode d, ServiceId d).
Definition of_tuple (p : string * string * Z * Z * string * string) : t :=
    let '(n, h, p, w, m, s) := p in mk n h p w m s.

#[global] Instance eq_dec : EqDecision t.
Proof. solve_decision. Defined.
#[global] Instance countable : Countable t.
Proof. apply (inj_countable' to_tuple of_tuple). by intros []. Defined.
End Destination.

(** ** Kernel records (package gipvs) *)

(** Modelled from the spec: the kernel-side records and the translators
    between them and the domain types are not part of the sources at hand.
    Section 6 of the specification describes the translators as a field
    mapping without semantic transformation, and section 3 lists the fields
    that make up the kernel record of a service (host, port, protocol,
    scheduler) and of a destination (host, port, weight, forwarding mode). *)
Module gipvs.
Record Service : Type := mkService {
    Address : string;
    Port : Z;
    Protocol : string;
    Scheduler : string
  }.

Record Destination : Type := mkDestination {
    DAddress : string;
    DPort : Z;
    Weight : Z;
    Flags : string
  }.

#[global] Instance service_eq_dec : EqDecision Service.
Proof. solve_decision. Defined.
#[global] Instance service_countable : Countable Service.
Proof.
    apply (inj_countable'
             (λ s, (Address s, Port s, Protocol s, Scheduler s))
             (λ '(a, p, pr, sc), mkService a p pr sc)).
    by intros [].
Defined.

#[global] Instance destination_eq_dec : EqDecision Destination.
Proof. solve_decision. Defined.
#[global] Instance destination_countable : Countable Destination.
Proof.
    apply (inj_countable'
             (λ d, (DAddress d, DPort d, Weight d, Flags d))
             (λ '(a, p, w, f), mkDestination a p w f)).
    by intros [].
Defined.
End gipvs.

(** Modelled from the spec: [ToIpvsService] copies the four kernel-relevant
    fields of a service. *)
Definition ToIpvsService (s : Service.t) : gipvs.Service :=
  gipvs.mkService (Service.Host s) (Service.Port s)
                  (Service.Protocol s) (Service.Scheduler s).

(** Modelled from the spec: [FromService] copies the fields back; the kernel
    keeps neither name nor mode, so both are left at Go's zero value. *)
Definition FromService (k : gipvs.Service) : Service.t :=
  Service.mk "" (gipvs.Address k) (gipvs.Port k)
             (gipvs.Protocol k) (gipvs.Scheduler k) "".

(** Modelled from the spec: [ToIpvsDestination] copies the four
    kernel-relevant fields of a destination. *)
Definition ToIpvsDestination (d : Destination.t) : gipvs.Destination :=
  gipvs.mkDestination (Destination.Host d) (Destination.Port d)
                      (Destination.Weight d) (Destination.Mode d).

(** Modelled from the spec: [fromDestination] copies the fields back; name
    and owning service are left at Go's zero value. *)
Definition fromDestination (k : gipvs.Destination) : Destination.t :=
  Destination.mk "" (gipvs.DAddress k) (gipvs.DPort k)
                 (gipvs.Weight k) (gipvs.Flags k) "".


(** Go's [error] interface; [None] stands for [nil]. *)
Definition error : Type := string.

(** ** The state provider (package state) *)

(** Modelled from the spec: the [state.State] interface is not part of the
    sources at hand. Section 6 of the specification gives the two queries the
    engine consumes, [GetServices() []Service] and
    [GetDestinations(svc) []Destination]; both return snapshots. *)
Module state.
Record State : Type := mkState {
  GetServices : list Service.t;
  GetDestinations : Service.t → list Destination.t
}.
End state.

(** ** Sets (package mapset) *)

(** The go-set library keeps the elements as the keys of a Go map, so two
    elements are the same when they are equal as struct values. *)
Module mapset.
Definition NewSet {A} `{Countable A} : gset A := ∅.
Definition Add {A} `{Countable A} (x : A) (X : gset A) : gset A := {[x]} ∪ X.
Definition Difference {A} `{Countable A} (X Y : gset A) : gset A := X ∖ Y.
End mapset.

(** ** Calls made by the engine *)

(** The calls of the kernel adapter that change the table. *)
Inductive Mutation : Type :=
| AddService (k : gipvs.Service)
| DeleteService (k : gipvs.Service)
| AddDestination (k : gipvs.Service) (d : gipvs.Destination)
| DeleteDestination (k : gipvs.Service) (d : gipvs.Destination)
| KFlush.

(** Everything the engine asks of its surroundings: the mutex embedded in the
    [Ipvs] struct, the two provider queries, the iterators of go-set (whose
    order is that of a Go map, hence not fixed), the two reads of the kernel
    table and its mutations. *)
Inductive Call : Type :=
| Lock
| Unlock
| StateGetServices
| StateGetDestinations (s : Service.t)
| IterServices (X : gset Service.t)
| IterDestinations (X : gset Destination.t)
| KGetServices
| KGetService (k : gipvs.Service)
| KMutate (m : Mutation).

#[global] Instance Mutation_eq_dec : EqDecision Mutation.
Proof. solve_decision. Defined.
#[global] Instance Call_eq_dec : EqDecision Call.
Proof. solve_decision. Defined.

(** What each call hands back. [KGetService] answers with the [Destinations]
    field of the service it found, the only field the engine reads. *)
Definition Resp (c : Call) : Type :=
  match c with
  | Lock | Unlock => unit
  | StateGetServices => list Service.t
  | StateGetDestinations _ => list Destination.t
  | IterServices _ => list Service.t
  | IterDestinations _ => list Destination.t
  | KGetServices => error + list gipvs.Service
  | KGetService _ => error + list gipvs.Destination
  | KMutate _ => option error
  end.

(** Programs: a value, or a call followed by the rest of the program. *)
Inductive Prog (A : Type) : Type :=
| Ret (a : A)
| Vis (c : Call) (k : Resp c → Prog A).
Arguments Ret {A} a.
Arguments Vis {A} c k.

Fixpoint bind {A B} (m : Prog A) (f : A → Prog B) : Prog B :=
  match m with
  | Ret a => f a
  | Vis c k => Vis c (λ r, bind (k r) f)
  end.

Definition call (c : Call) : Prog (Resp c) := Vis c Ret.

#[global] Instance prog_ret : MRet Prog := @Ret.
#[global] Instance prog_bind : MBind Prog := λ A B f m, bind m f.

(** [if err != nil { return err }] after a step that yields an [error]. *)
Notation "'check' m ; k" :=
  (bind m (λ r : option error,
     match r with Some err => Ret (Some err) | None => k end))
  (at level 20, m at level 100, k at level 200, only parsing).

(** A [for ... range] loop whose body may return an error, which leaves the
    enclosing function at once. *)
Fixpoint forEach {A} (l : list A) (body : A → Prog (option error))
  : Prog (option error) :=
  match l with
  | [] => Ret None
  | x :: l' => check body x ; forEach l' body
  end.

(** ** The engine (ipvs.go) *)

Definition addServiceAndDestinations
    (svc : Service.t) (dsts : list Destination.t) : Prog (option error) :=
  let ipvsService := ToIpvsService svc in
  check call (KMutate (AddService ipvsService)) ;
  forEach dsts (λ d,
    call (KMutate (AddDestination ipvsService (ToIpvsDestination d)))).

Definition getStateServicesSet : Prog (gset Service.t) :=
  svcs ← call StateGetServices ;
  Ret (foldl (λ stateSet s,
                let s := Service.set_Name "" s in
                let s := Service.set_Mode "" s in
                mapset.Add s stateSet)
             mapset.NewSet svcs).

Definition getCurrentServicesSet : Prog (error + gset Service.t) :=
  r ← call KGetServices ;
  match r with
  | inl err => Ret (inl err)
  | inr svcs =>
      Ret (inr (foldl (λ currentSet s, mapset.Add (FromService s) currentSet)
                      mapset.NewSet svcs))
  end.

Definition getStateDestinationsSet (svc : Service.t)
  : Prog (gset Destination.t) :=
  dsts ← call (StateGetDestinations svc) ;
  Ret (foldl (λ stateSet d,
                let d := Destination.set_Name "" d in
                let d := Destination.set_ServiceId "" d in
                mapset.Add d stateSet)
             mapset.NewSet dsts).

Definition getCurrentDestinationsSet (svc : Service.t)
  : Prog (error + gset Destination.t) :=
  let currentSet := mapset.NewSet in
  r ← call (KGetService (ToIpvsService svc)) ;
  match r with
  | inl err => Ret (inl err)
  | inr destinations =>
      Ret (inr (foldl (λ currentSet d, mapset.Add (fromDestination d) currentSet)
                      currentSet destinations))
  end.

Definition syncDestinations (svc : Service.t) : Prog (option error) :=
  stateSet ← getStateDestinationsSet svc ;
  r ← getCurrentDestinationsSet svc ;
  match r with
  | inl err => Ret (Some err)
  | inr currentSet =>
      let rulesToAdd := mapset.Difference stateSet currentSet in
      let rulesToRemove := mapset.Difference currentSet stateSet in
      toAdd ← call (IterDestinations rulesToAdd) ;
      check forEach toAdd (λ destination,
        call (KMutate (AddDestination (ToIpvsService svc)
                                      (ToIpvsDestination destination)))) ;
      toRemove ← call (IterDestinations rulesToRemove) ;
      check forEach toRemove (λ destination,
        call (KMutate (DeleteDestination (ToIpvsService svc)
                                         (ToIpvsDestination destination)))) ;
      Ret None
  end.

(** The body of [Sync] between taking the mutex and the deferred release. *)
Definition syncLocked : Prog (option error) :=
  stateSet ← getStateServicesSet ;
  r ← getCurrentServicesSet ;
  match r with
  | inl err => Ret (Some err)
  | inr currentSet =>
      let rulesToAdd := mapset.Difference stateSet currentSet in
      let rulesToRemove := mapset.Difference currentSet stateSet in
      (* Adding services and destinations missing *)
      toAdd ← call (IterServices rulesToAdd) ;
      check forEach toAdd (λ service,
        dsts ← call (StateGetDestinations service) ;
        addServiceAndDestinations service dsts) ;
      (* Cleaning rules *)
      toRemove ← call (IterServices rulesToRemove) ;
      check forEach toRemove (λ service,
        call (KMutate (DeleteService (ToIpvsService service)))) ;
      (* Syncing destination rules *)
      svcs ← call StateGetServices ;
      forEach svcs syncDestinations
  end.

(** [Sync]: [ipvs.Lock()], [defer ipvs.Unlock()], then the pass. The deferred
    release runs on every return path. *)
Definition Sync : Prog (option error) :=
  _ ← call Lock ;
  r ← syncLocked ;
  _ ← call Unlock ;
  Ret r.

(** [Flush] hands the kernel's answer back and takes no lock. *)
Definition Flush : Prog (option error) :=
  call (KMutate KFlush).

(** ** The kernel table *)

(** The live table: the services the kernel holds, each with its set of
    destinations. *)
Abbreviation Table := (gmap gipvs.Service (gset gipvs.Destination)).

(** Modelled from the spec: the kernel adapter is an external collaborator.
    Section 4.3 of the specification gives the contract of its primitives:
    what a call that reports no error has done to the table. Deleting a
    service drops its destinations with it. *)
Definition apply_mutation (m : Mutation) (t : Table) : Table :=
  match m with
  | AddService k =>
      match t !! k with Some _ => t | None => <[k := ∅]> t end
  | DeleteService k => delete k t
  | AddDestination k d => alter (λ ds, {[d]} ∪ ds) k t
  | DeleteDestination k d => alter (λ ds, ds ∖ {[d]}) k t
  | KFlush => ∅
  end.

(** The services the kernel lists, and the destinations it reports for one
    service. *)
Definition list_services (t : Table) : list gipvs.Service :=
  elements (dom t).
Definition list_destinations (t : Table) (k : gipvs.Service)
  : list gipvs.Destination :=
  elements (default ∅ (t !! k)).

(** ** Running a program *)

(** One entry of the record of a run: the call, and the error it came back
    with, if any. *)
Definition Event : Type := Call * option error.

Record World : Type := mkWorld {
  desired : state.State;   (* what the provider holds *)
  kernel : Table;          (* the live kernel table *)
  mutex : bool;            (* the mutex of the [Ipvs] struct; [true]: taken *)
  log : list Event         (* the calls made so far, oldest first *)
}.

Definition set_kernel (t : Table) (w : World) : World :=
  mkWorld (desired w) t (mutex w) (log w).
Definition set_mutex (b : bool) (w : World) : World :=
  mkWorld (desired w) (kernel w) b (log w).
Definition record_call (c : Call) (r : option error) (w : World) : World :=
  mkWorld (desired w) (kernel w) (mutex w) (log w ++ [(c, r)]).

(** What the engine does not control: which kernel calls fail, and with what
    error, and in which order a set hands out its elements. Both are indexed
    by the number of calls made before, so that every course of events is
    the course under some oracle. *)
Record Oracle : Type := mkOracle {
  fault : nat → option error;
  orderS : nat → list Service.t → list Service.t;
  orderD : nat → list Destination.t → list Destination.t;
  orderS_perm : ∀ n l, orderS n l ≡ₚ l;
  orderD_perm : ∀ n l, orderD n l ≡ₚ l
}.

(** The handler of one call. [None] means the call cannot proceed: [Lock] on
    a mutex that is taken blocks, [Unlock] on a free mutex is a fatal error
    of the Go runtime. A kernel call that fails leaves the table as it was. *)
Definition handle (o : Oracle) (c : Call) (w : World)
  : option (Resp c * World) :=
  let now := length (log w) in
  match c return option (Resp c * World) with
  | Lock =>
      if mutex w then None
      else Some (tt, record_call Lock None (set_mutex true w))
  | Unlock =>
      if mutex w then Some (tt, record_call Unlock None (set_mutex false w))
      else None
  | StateGetServices =>
      Some (state.GetServices (desired w), record_call StateGetServices None w)
  | StateGetDestinations s =>
      Some (state.GetDestinations (desired w) s,
            record_call (StateGetDestinations s) None w)
  | IterServices X =>
      Some (orderS o now (elements X), record_call (IterServices X) None w)
  | IterDestinations X =>
      Some (orderD o now (elements X), record_call (IterDestinations X) None w)
  | KGetServices =>
      match fault o now with
      | Some err => Some (inl err, record_call KGetServices (Some err) w)
      | None => Some (inr (list_services (kernel w)),
                      record_call KGetServices None w)
      end
  | KGetService k =>
      match fault o now with
      | Some err => Some (inl err, record_call (KGetService k) (Some err) w)
      | None => Some (inr (list_destinations (kernel w) k),
                      record_call (KGetService k) None w)
      end
  | KMutate m =>
      match fault o now with
      | Some err => Some (Some err, record_call (KMutate m) (Some err) w)
      | None => Some (None,
                      record_call (KMutate m) None
                        (set_kernel (apply_mutation m (kernel w)) w))
      end
  end.

Fixpoint run {A} (o : Oracle) (p : Prog A) (w : World) : option (A * World) :=
  match p with
  | Ret a => Some (a, w)
  | Vis c k =>
      match handle o c w with
      | None => None
      | Some (r, w') => run o (k r) w'
      end
  end.

(** ** Bootstrap *)

(** [loadIpvsModule] runs [modprobe ip_vs]. The command is not the engine's;
    what it answers is given. *)
Definition loadIpvsModule (modprobe : option error) : option error :=
  modprobe.

(** [New]: load the module, initialise the kernel library, make the [Ipvs]
    value and flush the table. [modprobe] and [init] are what the two
    outside steps answer. The new [Ipvs] value is the mutex of the world,
    free as Go's zero value is; when [New] returns an error it hands out no
    [Ipvs] value. The two wrapped errors are built by [fmt.Errorf] with the
    verb [%v], which prints the message of the error. *)
Definition New (o : Oracle) (modprobe init : option error) (w : World)
  : option (option error * World) :=
  match loadIpvsModule modprobe with
  | Some err => Some (Some err, w)
  | None =>
      match init with
      | Some err => Some (Some ("[ipvs] Initialisation failed: " +:+ err), w)
      | None =>
          let ipvs := set_mutex false w in
          match run o Flush ipvs with
          | None => None
          | Some (Some err, w') =>
              Some (Some ("[ipvs] Flushing table failed: " +:+ err), w')
          | Some (None, w') => Some (None, w')
          end
      end
  end.

(** ** Several callers at once *)

(** Goroutines that share one [Ipvs] value and one kernel: each is a
    program, and a step of the pool is one call of one of them. A call that
    cannot proceed (a [Lock] on the taken mutex) leaves its goroutine
    waiting. *)
Definition step_thread (o : Oracle) (i : nat)
    (ts : list (Prog (option error))) (w : World)
  : option (list (Prog (option error)) * World) :=
  match ts !! i with
  | Some (Vis c k) =>
      match handle o c w with
      | Some (r, w') => Some (<[i := k r]> ts, w')
      | None => None
      end
  | _ => None
  end.

(** A schedule names the goroutine that moves at each step. *)
Fixpoint run_schedule (o : Oracle) (sch : list nat)
    (ts : list (Prog (option error))) (w : World)
  : option (list (Prog (option error)) * World) :=
  match sch with
  | [] => Some (ts, w)
  | i :: sch' =>
      match step_thread o i ts w with
      | Some (ts', w') => run_schedule o sch' ts' w'
      | None => None
      end
  end.

(** The events a schedule added to the log, each with the goroutine that
    made the call. *)
Definition labelled (sch : list nat) (w w' : World) : list (nat * Event) :=
  zip sch (drop (length (log w)) (log w')).

(** The locking discipline, checked along a labelled trace: [h] is the
    goroutine that holds the mutex. Taking it needs it free, and every call
    on the kernel is made by the holder. *)
Fixpoint lock_discipline (h : option nat) (ltr : list (nat * Event)) : bool :=
  match ltr with
  | [] => true
  | (j, (c, _)) :: rest =>
      match c with
      | Lock => bool_decide (h = None) && lock_discipline (Some j) rest
      | Unlock => bool_decide (h = Some j) && lock_discipline None rest
      | KGetServices | KGetService _ | KMutate _ =>
          bool_decide (h = Some j) && lock_discipline h rest
      | _ => lock_discipline h rest
      end
  end.

(** ** Notions of the specification *)

(** Normalization (section 4.1): the metadata the kernel does not keep is
    blanked. *)
Definition normalizeService (s : Service.t) : Service.t :=
  Service.set_Mode "" (Service.set_Name "" s).
Definition normalizeDestination (d : Destination.t) : Destination.t :=
  Destination.set_ServiceId "" (Destination.set_Name "" d).

Definition normalizedServices (l : list Service.t) : gset Service.t :=
  list_to_set (normalizeService <$> l).
Definition normalizedDestinations (l : list Destination.t)
  : gset Destination.t :=
  list_to_set (normalizeDestination <$> l).

(** The live state, read back as domain entities. *)
Definition liveServices (t : Table) : list Service.t :=
  FromService <$> list_services t.
Definition liveDestinations (t : Table) (s : Service.t)
  : list Destination.t :=
  fromDestination <$> list_destinations t (ToIpvsService s).

(** Live and desired state agree under normalized equality, for the services
    and for the destinations of every desired service. *)
Definition converged (D : state.State) (t : Table) : Prop :=
  normalizedServices (liveServices t)
    = normalizedServices (state.GetServices D) ∧
  ∀ s, s ∈ state.GetServices D →
    normalizedDestinations (liveDestinations t s)
      = normalizedDestinations (state.GetDestinations D s).

(** The invariant of section 3: no two desired services share the
    reconciliation identity. *)
Definition identity_unique (D : state.State) : Prop :=
  ∀ s1 s2, s1 ∈ state.GetServices D → s2 ∈ state.GetServices D →
    normalizeService s1 = normalizeService s2 → s1 = s2.

(** The two levels of the difference, as [Sync] and [syncDestinations]
    compute them from the desired state and the table. *)
Definition servicesToAdd (D : state.State) (t : Table) : gset Service.t :=
  normalizedServices (state.GetServices D) ∖ normalizedServices (liveServices t).
Definition servicesToRemove (D : state.State) (t : Table) : gset Service.t :=
  normalizedServices (liveServices t) ∖ normalizedServices (state.GetServices D).
Definition destinationsToAdd (D : state.State) (t : Table) (s : Service.t)
  : gset Destination.t :=
  normalizedDestinations (state.GetDestinations D s)
    ∖ normalizedDestinations (liveDestinations t s).
Definition destinationsToRemove (D : state.State) (t : Table) (s : Service.t)
  : gset Destination.t :=
  normalizedDestinations (liveDestinations t s)
    ∖ normalizedDestinations (state.GetDestinations D s).

(** ** Reading the record of a run *)

Definition is_mutation (ev : Event) : bool :=
  match ev.1 with KMutate _ => true | _ => false end.
Definition is_kernel_call (c : Call) : bool :=
  match c with
  | KGetServices | KGetService _ | KMutate _ => true
  | _ => false
  end.
Definition is_read (c : Call) : bool :=
  match c with
  | KGetServices | KGetService _ => true
  | _ => false
  end.
Definition succeeded (ev : Event) : bool :=
  match ev.2 with None => true | Some _ => false end.

(** The contract of section 7 on a trace and the result that goes with it:
    either every call succeeded, or the one call that failed is the last,
    and its error is the result. *)
Definition failfast (r : option error) (tr : list Event) : Prop :=
  match r with
  | None => Forall succeeded tr
  | Some err =>
      ∃ pre c, tr = pre ++ [(c, Some err)] ∧ Forall succeeded pre ∧
               is_kernel_call c
  end.

(** An event of a pass that finds nothing to do: no mutation, and the sets
    handed to the loops are empty. *)
Definition quiet (ev : Event) : Prop :=
  match ev.1 with
  | KMutate _ => False
  | IterServices X => X = ∅
  | IterDestinations X => X = ∅
  | _ => True
  end.

(** What the loops of a pass are handed: sets of normalized copies. *)
Definition hands_out_copies (c : Call) : Prop :=
  match c with
  | IterServices X =>
      ∀ s, s ∈ X → Service.Name s = "" ∧ Service.Mode s = ""
  | IterDestinations X =>
      ∀ d, d ∈ X → Destination.Name d = "" ∧ Destination.ServiceId d = ""
  | _ => True
  end.

Definition not_add_service (c : Call) : Prop :=
  match c with KMutate (AddService _) => False | _ => True end.
Definition is_add_service (ev : Event) : bool :=
  match ev.1 with KMutate (AddService _) => true | _ => false end.

(** Every addition of a service in the trace comes right after the query
    for the destinations of a service of [X], and it adds that service. *)
Definition adds_follow_queries (X : gset Service.t) (tr : list Event) : Prop :=
  ∀ pre k r post,
    tr = pre ++ (KMutate (AddService k), r) :: post →
    ∃ pre' s, pre = pre' ++ [(StateGetDestinations s, None)] ∧
              k = ToIpvsService s ∧ s ∈ X.

(** The queries put to the provider in a trace, in their order. *)
Definition is_provider_call (c : Call) : bool :=
  match c with
  | StateGetServices | StateGetDestinations _ => true
  | _ => false
  end.
Definition provider_calls (tr : list Event) : list Call :=
  filter (λ c, is_provider_call c) (fst <$> tr).

(** The queries of a whole pass: the service list, the destinations of each
    service to add in the order [toAdd] of the loop, the service list again,
    the destinations of each desired service. *)
Definition pass_queries (toAdd svcs : list Service.t) : list Call :=
  StateGetServices :: (StateGetDestinations <$> toAdd)
    ++ StateGetServices :: (StateGetDestinations <$> svcs).

(** The table after the successful mutations of a trace, in their order. *)
Definition replay (tr : list Event) (t : Table) : Table :=
  foldl (λ t ev, match ev with
                 | (KMutate m, None) => apply_mutation m t
                 | _ => t
                 end) t tr.

(** The reconciliation of the destinations of one service [s], carried out
    in full against the table [t]: the two reads, the destinations to add in
    the order [la] of the loop, the destinations to remove in the order
    [lr]. *)
Definition reconciliation (D : state.State) (t : Table) (s : Service.t)
    (la lr : list Destination.t) : list Event :=
  [(StateGetDestinations s, None);
   (KGetService (ToIpvsService s), None);
   (IterDestinations (destinationsToAdd D t s), None)]
  ++ ((λ d, (KMutate (AddDestination (ToIpvsService s)
                                     (ToIpvsDestination d)), None)) <$> la)
  ++ [(IterDestinations (destinationsToRemove D t s), None)]
  ++ ((λ d, (KMutate (DeleteDestination (ToIpvsService s)
                                        (ToIpvsDestination d)), None)) <$> lr).

(** The trace holds the reconciliation of [s], against the table as it was
    when the reconciliation began. *)
Definition reconciled (D : state.State) (t0 : Table) (s : Service.t)
    (tr : list Event) : Prop :=
  ∃ pre post la lr,
    tr = pre ++ reconciliation D (replay pre t0) s la lr ++ post ∧
    la ≡ₚ elements (destinationsToAdd D (replay pre t0) s) ∧
    lr ≡ₚ elements (destinationsToRemove D (replay pre t0) s).

(** [post o p w Q]: from [w] the program returns, and its result, the world
    it leaves and the events it added satisfy [Q]. What holds of every
    program is part of the judgement: the events are appended to the log,
    the provider's data is left alone, and the table has changed by the
    successful mutations of the trace and nothing else. *)
Definition post {A} (o : Oracle) (p : Prog A) (w : World)
    (Q : A → World → list Event → Prop) : Prop :=
  ∃ a w' tr,
    run o p w = Some (a, w') ∧
    log w' = log w ++ tr ∧
    desired w' = desired w ∧
    kernel w' = replay tr (kernel w) ∧
    Q a w' tr.

(** Programs all of whose calls, whatever the answers, satisfy [P]. *)
Inductive only_calls {A} (P : Call → Prop) : Prog A → Prop :=
| only_calls_ret a : only_calls P (Ret a)
| only_calls_vis c k :
    P c → (∀ r, only_calls P (k r)) → only_calls P (Vis c k).

(** Calls other than on the mutex, and programs that never touch it. *)
Definition not_mutex (c : Call) : Prop := c ≠ Lock ∧ c ≠ Unlock.
Definition lockfree {A} (p : Prog A) : Prop := only_calls not_mutex p.

(** Programs inside the critical section: calls other than on the mutex,
    then [Unlock], then the return. *)
Definition finished {A} (p : Prog A) : Prop :=
  match p with Ret _ => True | Vis _ _ => False end.
Fixpoint critical {A} (p : Prog A) : Prop :=
  match p with
  | Ret _ => False
  | Vis c k =>
      c ≠ Lock ∧
      ∀ r, if decide (c = Unlock) then finished (k r) else critical (k r)
  end.

(** Programs about to enter the critical section. *)
Definition entering {A} (p : Prog A) : Prop :=
  match p with
  | Ret _ => False
  | Vis c k => c = Lock ∧ ∀ r, critical (k r)
  end.

(** The state of a pool of callers: the mutex is taken exactly when some
    goroutine [h] holds it; that one is inside its critical section, every
    other one has not entered or has returned. *)
Definition pool_inv (h : option nat) (ts : list (Prog (option error)))
    (w : World) : Prop :=
  mutex w = bool_decide (is_Some h) ∧
  ∀ i p, ts !! i = Some p →
    (h = Some i → critical p) ∧ (h ≠ Some i → entering p ∨ finished p).

(** ** Further notions *)

(** A mutation of the set of services that the state of things at the start
    of a pass calls for: a service is added when it is desired and not
    live, removed when it is live and not desired. A pass never flushes. *)
Definition justified (D : state.State) (t0 : Table) (c : Call) : Prop :=
  match c with
  | KMutate (AddService k) =>
      (k ∉ dom t0) ∧ ∃ s, s ∈ state.GetServices D ∧ k = ToIpvsService s
  | KMutate (DeleteService k) =>
      k ∈ dom t0 ∧ ∀ s, s ∈ state.GetServices D → ToIpvsService s ≠ k
  | KMutate KFlush => False
  | _ => True
  end.

(** A call that changes nothing in the table but the destinations of the
    service [k0]. *)
Definition touches_only (k0 : gipvs.Service) (c : Call) : Prop :=
  match c with
  | KMutate (AddDestination k _) | KMutate (DeleteDestination k _) => k = k0
  | KMutate _ => False
  | _ => True
  end.

Definition adds_service (c : Call) : Prop :=
  match c with KMutate (AddService _) => True | _ => False end.
Definition removes_service (c : Call) : Prop :=
  match c with KMutate (DeleteService _) => True | _ => False end.
Definition adds_destination (c : Call) : Prop :=
  match c with KMutate (AddDestination _ _) => True | _ => False end.
Definition removes_destination (c : Call) : Prop :=
  match c with KMutate (DeleteDestination _ _) => True | _ => False end.

(** The invariant of a pool together with the fact that the holder of the
    mutex is one of its goroutines. *)
Definition pool_live (h : option nat) (ts : list (Prog (option error)))
    (w : World) : Prop :=
  pool_inv h ts w ∧ ∀ i, h = Some i → is_Some (ts !! i).

(** The service [s] has had its turn in the trace: the provider was asked
    for the destinations of [s], and the next call added the translation of
    [s] to the table, with the result [r]. *)
Definition queried_and_added (s : Service.t) (tr : list Event) : Prop :=
  ∃ pre r post,
    tr = pre ++ (StateGetDestinations s, None)
             :: (KMutate (AddService (ToIpvsService s)), r) :: post.

(** The calls whose failure can end a pass before every service to add has
    had its turn: the listing of the services, and the additions. *)
Definition before_removals (c : Call) : Prop :=
  match c with
  | KGetServices | KMutate (AddService _) | KMutate (AddDestination _ _) =>
      True
  | _ => False
  end.

(** The services of [X] have their turn one after the other; [done] are
    those that had it. They are all of [X], unless the pass ended on the
    failure of a call of the kind above. *)
Definition turns_taken (X : gset Service.t) (r : option error)
    (tr : list Event) (la done : list Service.t) : Prop :=
  la ≡ₚ elements X ∧ done `prefix_of` la ∧
  (∀ s, s ∈ done → queried_and_added s tr) ∧
  (done = la ∨
   ∃ pre c err, r = Some err ∧ tr = pre ++ [(c, Some err)] ∧
                before_removals c).

(** ** A small cluster *)

(** One virtual service with one backend, as in the first scenario of the
    specification. The provider finds the destinations of a service by the
    name of the service. *)
Definition svc_web : Service.t :=
  Service.mk "web" "10.8.0.1" 80 "tcp" "rr" "nat".
Definition dst_a : Destination.t :=
  Destination.mk "a" "10.0.0.1" 8080 1 "nat" "web".
Definition desired_web : state.State :=
  state.mkState [svc_web]
    (λ s, if decide (Service.Name s = "web") then [dst_a] else []).

(** The kernel never fails and sets hand out their elements in the order
    [elements] lists them. *)
Definition calm : Oracle :=
  mkOracle (λ _, None) (λ _ l, l) (λ _ l, l)
           (λ _ l, reflexivity l) (λ _ l, reflexivity l).

(** An empty table, the mutex free, nothing logged. *)
Definition world_web : World := mkWorld desired_web ∅ false [].

(** As [calm], but the call made after [n] others fails with [err], should
    it be a call on the kernel. *)
Definition failing_at (n : nat) (err : error) : Oracle :=
  mkOracle (λ i, if decide (i = n) then Some err else None)
           (λ _ l, l) (λ _ l, l)
           (λ _ l, reflexivity l) (λ _ l, reflexivity l).

(** A provider that holds nothing, and a table that still has the service
    of [desired_web] with its destination. *)
Definition desired_none : state.State := state.mkState [] (λ _, []).
Definition world_stale : World :=
  mkWorld desired_none
          {[ToIpvsService svc_web := {[ToIpvsDestination dst_a]}]} false [].

(** Two desired services that differ in name only, each with a backend of
    its own: a desired state outside the invariant of section 3. *)
Definition svc_www : Service.t :=
  Service.mk "www" "10.8.0.1" 80 "tcp" "rr" "nat".
Definition dst_b : Destination.t :=
  Destination.mk "b" "10.0.0.2" 8080 1 "nat" "www".
Definition desired_twins : state.State :=
  state.mkState [svc_web; svc_www]
    (λ s, if decide (Service.Name s = "web") then [dst_a]
          else if decide (Service.Name s = "www") then [dst_b] else []).
Definition world_twins : World := mkWorld desired_twins ∅ false [].

(** Two desired services on different ports, and an empty table. *)
Definition svc_dns : Service.t :=
  Service.mk "dns" "10.8.0.1" 53 "udp" "rr" "nat".
Definition desired_pair : state.State :=
  state.mkState [svc_web; svc_dns] (λ _, []).
Definition world_pair : World := mkWorld desired_pair ∅ false [].

(** The provider wants [svc_web]; the table holds [svc_dns] instead. *)
Definition world_swap : World :=
  mkWorld desired_web {[ToIpvsService svc_dns := ∅]} false [].

(** * Reasoning about runs *)

Section runs.
Context (o : Oracle).

Lemma replay_app tr1 tr2 t :
  replay (tr1 ++ tr2) t = replay tr2 (replay tr1 t).
Proof. apply foldl_app. Qed.

Lemma run_bind {A B} (m : Prog A) (f : A → Prog B) w :
  run o (bind m f) w =
  match run o m w with
  | Some (a, w') => run o (f a) w'
  | None => None
  end.
Proof.
  revert w. induction m as [a | c k IH]; intros w; simpl; [done |].
  destruct (handle o c w) as [[r w1] |]; [apply IH | done].
Qed.

Lemma post_ret {A} (a : A) w (Q : A → World → list Event → Prop) :
  Q a w [] → post o (Ret a) w Q.
Proof. intros HQ. exists a, w, []. rewrite app_nil_r. by repeat split. Qed.

Lemma post_bind {A B} (m : Prog A) (f : A → Prog B) w
    (Q : B → World → list Event → Prop) :
  post o m w (λ a w1 tr1,
    post o (f a) w1 (λ b w2 tr2, Q b w2 (tr1 ++ tr2))) →
  post o (bind m f) w Q.
Proof.
  intros (a & w1 & tr1 & Hrun1 & Hlog1 & Hd1 & Hk1 &
          b & w2 & tr2 & Hrun2 & Hlog2 & Hd2 & Hk2 & HQ).
  exists b, w2, (tr1 ++ tr2). rewrite run_bind, Hrun1. split; [done |].
  by rewrite Hlog2, Hlog1, Hd2, Hd1, Hk2, Hk1, replay_app, app_assoc.
Qed.

Lemma post_mbind {A B} (m : Prog A) (f : A → Prog B) w
    (Q : B → World → list Event → Prop) :
  post o m w (λ a w1 tr1,
    post o (f a) w1 (λ b w2 tr2, Q b w2 (tr1 ++ tr2))) →
  post o (m ≫= f) w Q.
Proof. apply post_bind. Qed.

(** The consequence rule; what the judgement itself records about the final
    world may be used. *)
Lemma post_mono {A} (p : Prog A) w (Q Q' : A → World → list Event → Prop) :
  post o p w Q →
  (∀ a w' tr,
     log w' = log w ++ tr → desired w' = desired w →
     kernel w' = replay tr (kernel w) → Q a w' tr → Q' a w' tr) →
  post o p w Q'.
Proof.
  intros (a & w' & tr & ? & ? & ? & ? & ?) HQ. exists a, w', tr. eauto 10.
Qed.

(** A run is a function of the start, so two facts about it hold together. *)
Lemma post_conj {A} (p : Prog A) w (Q Q' : A → World → list Event → Prop) :
  post o p w Q → post o p w Q' →
  post o p w (λ a w' tr, Q a w' tr ∧ Q' a w' tr).
Proof.
  intros (a & w' & tr & Hr & Hl & ? & ? & ?)
         (a' & w'' & tr' & Hr' & Hl' & ? & ? & ?).
  rewrite Hr in Hr'. simplify_eq. rewrite Hl in Hl'.
  apply app_inv_head in Hl'. subst. exists a', w'', tr'. eauto 10.
Qed.

Lemma post_elim {A} (p : Prog A) w Q a w' :
  post o p w Q → run o p w = Some (a, w') →
  ∃ tr, log w' = log w ++ tr ∧ desired w' = desired w ∧
        kernel w' = replay tr (kernel w) ∧ Q a w' tr.
Proof.
  intros (a0 & w0 & tr & Hr & ? & ? & ? & ?) Hrun.
  rewrite Hr in Hrun. simplify_eq. eauto.
Qed.

Lemma post_returns {A} (p : Prog A) w Q :
  post o p w Q → is_Some (run o p w).
Proof. intros (a & w' & ? & -> & _). eauto. Qed.

(** ** The calls *)

Lemma post_lock w (Q : unit → World → list Event → Prop) :
  mutex w = false →
  Q () (record_call Lock None (set_mutex true w)) [(Lock, None)] →
  post o (call Lock) w Q.
Proof.
  intros Hm HQ. eexists _, _, _. simpl. rewrite Hm. by repeat split.
Qed.

Lemma post_unlock w (Q : unit → World → list Event → Prop) :
  mutex w = true →
  Q () (record_call Unlock None (set_mutex false w)) [(Unlock, None)] →
  post o (call Unlock) w Q.
Proof.
  intros Hm HQ. eexists _, _, _. simpl. rewrite Hm. by repeat split.
Qed.

Lemma post_StateGetServices w (Q : list Service.t → World → list Event → Prop) :
  Q (state.GetServices (desired w)) (record_call StateGetServices None w)
    [(StateGetServices, None)] →
  post o (call StateGetServices) w Q.
Proof. intros HQ. eexists _, _, _. by repeat split. Qed.

Lemma post_StateGetDestinations s w
    (Q : list Destination.t → World → list Event → Prop) :
  Q (state.GetDestinations (desired w) s)
    (record_call (StateGetDestinations s) None w)
    [(StateGetDestinations s, None)] →
  post o (call (StateGetDestinations s)) w Q.
Proof. intros HQ. eexists _, _, _. by repeat split. Qed.

Lemma post_IterServices X w (Q : list Service.t → World → list Event → Prop) :
  (∀ l, l ≡ₚ elements X →
     Q l (record_call (IterServices X) None w) [(IterServices X, None)]) →
  post o (call (IterServices X)) w Q.
Proof.
  intros HQ. eexists _, _, _. repeat split. apply HQ, orderS_perm.
Qed.

Lemma post_IterDestinations X w
    (Q : list Destination.t → World → list Event → Prop) :
  (∀ l, l ≡ₚ elements X →
     Q l (record_call (IterDestinations X) None w)
       [(IterDestinations X, None)]) →
  post o (call (IterDestinations X)) w Q.
Proof.
  intros HQ. eexists _, _, _. repeat split. apply HQ, orderD_perm.
Qed.

Lemma post_KGetServices w
    (Q : error + list gipvs.Service → World → list Event → Prop) :
  (∀ err, Q (inl err) (record_call KGetServices (Some err) w)
            [(KGetServices, Some err)]) →
  Q (inr (list_services (kernel w))) (record_call KGetServices None w)
    [(KGetServices, None)] →
  post o (call KGetServices) w Q.
Proof.
  intros HQe HQ. unfold post. simpl.
  destruct (fault o (length (log w))) as [err |]; eexists _, _, _;
    repeat split; eauto.
Qed.

Lemma post_KGetService k w
    (Q : error + list gipvs.Destination → World → list Event → Prop) :
  (∀ err, Q (inl err) (record_call (KGetService k) (Some err) w)
            [(KGetService k, Some err)]) →
  Q (inr (list_destinations (kernel w) k))
    (record_call (KGetService k) None w) [(KGetService k, None)] →
  post o (call (KGetService k)) w Q.
Proof.
  intros HQe HQ. unfold post. simpl.
  destruct (fault o (length (log w))) as [err |]; eexists _, _, _;
    repeat split; eauto.
Qed.

Lemma post_KMutate m w (Q : option error → World → list Event → Prop) :
  (∀ err, Q (Some err) (record_call (KMutate m) (Some err) w)
            [(KMutate m, Some err)]) →
  Q None (record_call (KMutate m) None
            (set_kernel (apply_mutation m (kernel w)) w))
    [(KMutate m, None)] →
  post o (call (KMutate m)) w Q.
Proof.
  intros HQe HQ. unfold post. simpl.
  destruct (fault o (length (log w))) as [err |]; eexists _, _, _;
    repeat split; eauto.
Qed.

(** ** Loops *)

(** The rule of [forEach]: [I done w tr] holds after the elements [done]
    have been dealt with; an error leaves the loop with what the body
    established. *)
Lemma post_forEach {A} (body : A → Prog (option error)) (l : list A) w
    (I : list A → World → list Event → Prop)
    (Q : option error → World → list Event → Prop) :
  I [] w [] →
  (∀ done x rest w1 tr1,
     l = done ++ x :: rest → I done w1 tr1 →
     post o (body x) w1 (λ r w2 tr2,
       match r with
       | None => I (done ++ [x]) w2 (tr1 ++ tr2)
       | Some err => Q (Some err) w2 (tr1 ++ tr2)
       end)) →
  (∀ w' tr, I l w' tr → Q None w' tr) →
  post o (forEach l body) w Q.
Proof.
  intros HI Hbody Hend.
  cut (∀ rest done w1 tr1,
         l = done ++ rest → I done w1 tr1 →
         post o (forEach rest body) w1 (λ r w2 tr2, Q r w2 (tr1 ++ tr2))).
  { intros H. eapply post_mono; [apply (H l [] w []); done | done]. }
  induction rest as [| x rest IH]; intros done w1 tr1 Hl HI1; simpl.
  - apply post_ret. rewrite app_nil_r in *. subst. by apply Hend.
  - apply post_bind.
    eapply post_mono; [apply (Hbody done x rest w1 tr1 Hl HI1) |].
    intros [err |] w2 tr2 _ _ _ HQ.
    + apply post_ret. by rewrite app_nil_r.
    + eapply post_mono.
      * apply (IH (done ++ [x]) w2 (tr1 ++ tr2)); [| done].
        by rewrite <- app_assoc.
      * intros r w3 tr3 _ _ _ HQ3. by rewrite app_assoc.
Qed.

(** ** Programs whose calls are all of one kind *)

Lemma only_calls_bind {A B} P (m : Prog A) (f : A → Prog B) :
  only_calls P m → (∀ a, only_calls P (f a)) → only_calls P (bind m f).
Proof.
  intros Hm Hf. induction Hm as [a | c k ? _ IH]; simpl; [apply Hf |].
  by constructor.
Qed.

Lemma only_calls_call P c : P c → only_calls P (call c).
Proof. intros. constructor; [done |]. intros r. constructor. Qed.

Lemma only_calls_forEach {A} P (body : A → Prog (option error)) l :
  (∀ x, only_calls P (body x)) → only_calls P (forEach l body).
Proof.
  intros Hb. induction l as [| x l IH]; simpl; [constructor |].
  apply only_calls_bind; [done |]. intros [err |]; [constructor | done].
Qed.

Lemma only_calls_mono {A} (P P' : Call → Prop) (p : Prog A) :
  (∀ c, P c → P' c) → only_calls P p → only_calls P' p.
Proof. intros HP. induction 1; constructor; auto. Qed.

Lemma handle_mutex c r w w' :
  not_mutex c → handle o c w = Some (r, w') → mutex w' = mutex w.
Proof.
  intros [? ?] Hh. destruct c; simpl in Hh; try done;
    repeat case_match; by simplify_eq.
Qed.

Lemma handle_is_Some c w : not_mutex c → is_Some (handle o c w).
Proof.
  intros [? ?]. destruct c; simpl; try done; repeat case_match; eauto.
Qed.

Lemma handle_frame c r w w' :
  handle o c w = Some (r, w') →
  ∃ e, log w' = log w ++ [(c, e)] ∧ desired w' = desired w ∧
       kernel w' = replay [(c, e)] (kernel w).
Proof.
  intros Hh. destruct c; simpl in Hh; repeat case_match; simplify_eq;
    eexists; repeat split.
Qed.

(** Such a program returns, leaves the mutex as it found it, and every event
    of its trace is a call of that kind. *)
Lemma post_only_calls {A} (P : Call → Prop) (p : Prog A) w :
  only_calls (λ c, not_mutex c ∧ P c) p →
  post o p w (λ _ w' tr, mutex w' = mutex w ∧ Forall (λ ev, P ev.1) tr).
Proof.
  intros Hp. revert w. induction Hp as [a | c k [Hc HP] _ IH]; intros w.
  - by apply post_ret.
  - destruct (handle_is_Some c w Hc) as [[r w1] Hh].
    destruct (handle_frame _ _ _ _ Hh) as (e & Hl & Hd & Hk).
    destruct (IH r w1) as (a & w2 & tr & Hr2 & Hl2 & Hd2 & Hk2 & Hm2 & Htr).
    exists a, w2, ((c, e) :: tr). simpl. rewrite Hh. split; [done |].
    rewrite Hl2, Hl, Hd2, Hd, Hk2, Hk, Hm2, <- app_assoc.
    repeat split; [by eapply handle_mutex |]. by constructor.
Qed.

Lemma post_lockfree {A} (p : Prog A) w :
  lockfree p → post o p w (λ _ w' _, mutex w' = mutex w).
Proof.
  intros Hp. eapply post_mono.
  - apply (post_only_calls (λ _, True)).
    eapply only_calls_mono; [| exact Hp]. by intros c Hc.
  - by intros a w' tr _ _ _ [? _].
Qed.
End runs.

(** * The helpers of the engine *)

(** ** Translators and normalization *)

Lemma ToIpvsService_FromService k : ToIpvsService (FromService k) = k.
Proof. by destruct k. Qed.

Lemma FromService_ToIpvsService s :
  FromService (ToIpvsService s) = normalizeService s.
Proof. by destruct s. Qed.

Lemma ToIpvsDestination_fromDestination k :
  ToIpvsDestination (fromDestination k) = k.
Proof. by destruct k. Qed.

Lemma fromDestination_ToIpvsDestination d :
  fromDestination (ToIpvsDestination d) = normalizeDestination d.
Proof. by destruct d. Qed.

Lemma normalizeService_idemp s :
  normalizeService (normalizeService s) = normalizeService s.
Proof. done. Qed.

Lemma normalizeDestination_idemp d :
  normalizeDestination (normalizeDestination d) = normalizeDestination d.
Proof. done. Qed.

Lemma normalizeService_FromService k :
  normalizeService (FromService k) = FromService k.
Proof. done. Qed.

Lemma normalizeDestination_fromDestination k :
  normalizeDestination (fromDestination k) = fromDestination k.
Proof. done. Qed.

Lemma ToIpvsService_normalize s :
  ToIpvsService (normalizeService s) = ToIpvsService s.
Proof. done. Qed.

Lemma ToIpvsDestination_normalize d :
  ToIpvsDestination (normalizeDestination d) = ToIpvsDestination d.
Proof. done. Qed.

Lemma ToIpvsService_eq s1 s2 :
  ToIpvsService s1 = ToIpvsService s2 ↔
  normalizeService s1 = normalizeService s2.
Proof.
  rewrite <- !FromService_ToIpvsService. split; [by intros -> |].
  intros H. by rewrite <- (ToIpvsService_FromService (ToIpvsService s1)), H,
    ToIpvsService_FromService.
Qed.

Lemma elem_of_normalizedServices x l :
  x ∈ normalizedServices l ↔ ∃ s, s ∈ l ∧ x = normalizeService s.
Proof.
  unfold normalizedServices. rewrite elem_of_list_to_set, list_elem_of_fmap.
  naive_solver.
Qed.

Lemma elem_of_normalizedDestinations x l :
  x ∈ normalizedDestinations l ↔ ∃ d, d ∈ l ∧ x = normalizeDestination d.
Proof.
  unfold normalizedDestinations.
  rewrite elem_of_list_to_set, list_elem_of_fmap. naive_solver.
Qed.

Lemma normalizedServices_normal x l :
  x ∈ normalizedServices l → normalizeService x = x.
Proof. rewrite elem_of_normalizedServices. by intros (s & _ & ->). Qed.

Lemma normalizedDestinations_normal x l :
  x ∈ normalizedDestinations l → normalizeDestination x = x.
Proof. rewrite elem_of_normalizedDestinations. by intros (s & _ & ->). Qed.

Lemma elem_of_list_services k (t : Table) : k ∈ list_services t ↔ k ∈ dom t.
Proof. unfold list_services. apply elem_of_elements. Qed.

Lemma elem_of_list_destinations d k (t : Table) :
  d ∈ list_destinations t k ↔ ∃ ds, t !! k = Some ds ∧ d ∈ ds.
Proof.
  unfold list_destinations. rewrite elem_of_elements.
  destruct (t !! k) as [ds |]; simpl; [naive_solver | set_solver].
Qed.

Lemma elem_of_live_services x (t : Table) :
  x ∈ normalizedServices (liveServices t) ↔ ∃ k, k ∈ dom t ∧ x = FromService k.
Proof.
  rewrite elem_of_normalizedServices. unfold liveServices. split.
  - intros (s & (k & -> & Hk)%list_elem_of_fmap & ->).
    exists k. by rewrite <- elem_of_list_services.
  - intros (k & Hk & ->). exists (FromService k). split; [| done].
    apply list_elem_of_fmap. exists k. by rewrite elem_of_list_services.
Qed.

Lemma elem_of_live_destinations x (t : Table) s :
  x ∈ normalizedDestinations (liveDestinations t s) ↔
  ∃ ds d, t !! ToIpvsService s = Some ds ∧ d ∈ ds ∧ x = fromDestination d.
Proof.
  rewrite elem_of_normalizedDestinations. unfold liveDestinations. split.
  - intros (d' & (d & -> & Hd)%list_elem_of_fmap & ->).
    apply elem_of_list_destinations in Hd as (ds & ? & ?). by exists ds, d.
  - intros (ds & d & ? & ? & ->). exists (fromDestination d). split; [| done].
    apply list_elem_of_fmap. exists d. split; [done |].
    apply elem_of_list_destinations. eauto.
Qed.

(** ** The sets the engine builds *)

Lemma foldl_state_services (svcs : list Service.t) (X : gset Service.t) :
  foldl (λ stateSet s,
           let s := Service.set_Name "" s in
           let s := Service.set_Mode "" s in
           mapset.Add s stateSet) X svcs
  = normalizedServices svcs ∪ X.
Proof.
  revert X. induction svcs as [| s svcs IH]; intros X; simpl.
  - unfold normalizedServices. set_solver.
  - rewrite IH. unfold normalizedServices, mapset.Add, normalizeService.
    set_solver.
Qed.

Lemma foldl_current_services (ks : list gipvs.Service) (X : gset Service.t) :
  foldl (λ currentSet s, mapset.Add (FromService s) currentSet) X ks
  = list_to_set (FromService <$> ks) ∪ X.
Proof.
  revert X. induction ks as [| k ks IH]; intros X; simpl; [set_solver |].
  rewrite IH. unfold mapset.Add. set_solver.
Qed.

Lemma foldl_state_destinations (dsts : list Destination.t)
    (X : gset Destination.t) :
  foldl (λ stateSet d,
           let d := Destination.set_Name "" d in
           let d := Destination.set_ServiceId "" d in
           mapset.Add d stateSet) X dsts
  = normalizedDestinations dsts ∪ X.
Proof.
  revert X. induction dsts as [| d dsts IH]; intros X; simpl.
  - unfold normalizedDestinations. set_solver.
  - rewrite IH. unfold normalizedDestinations, mapset.Add, normalizeDestination.
    set_solver.
Qed.

Lemma foldl_current_destinations (ds : list gipvs.Destination)
    (X : gset Destination.t) :
  foldl (λ currentSet d, mapset.Add (fromDestination d) currentSet) X ds
  = list_to_set (fromDestination <$> ds) ∪ X.
Proof.
  revert X. induction ds as [| d ds IH]; intros X; simpl; [set_solver |].
  rewrite IH. unfold mapset.Add. set_solver.
Qed.

Lemma live_services_set (t : Table) :
  list_to_set (FromService <$> list_services t)
  = normalizedServices (liveServices t).
Proof.
  unfold normalizedServices, liveServices. f_equal.
  rewrite <- list_fmap_compose. by apply list_fmap_ext.
Qed.

Lemma live_destinations_set (t : Table) s :
  list_to_set (fromDestination <$> list_destinations t (ToIpvsService s))
  = normalizedDestinations (liveDestinations t s).
Proof.
  unfold normalizedDestinations, liveDestinations. f_equal.
  rewrite <- list_fmap_compose. by apply list_fmap_ext.
Qed.

(** One step of showing [only_calls P p] along the structure of [p]; what
    is left is [P] of each call. *)
Ltac only_calls_step :=
  lazymatch goal with
  | |- lockfree _ => unfold lockfree
  | |- only_calls _ (bind _ _) => apply only_calls_bind
  | |- only_calls _ (_ ≫= _) => apply only_calls_bind
  | |- only_calls _ (forEach _ _) => apply only_calls_forEach
  | |- only_calls ?P (call ?c) => apply (only_calls_call P c)
  | |- only_calls _ (Ret _) => constructor
  | |- only_calls _ (match ?x with _ => _ end) => destruct x
  | |- only_calls _ getStateServicesSet => unfold getStateServicesSet
  | |- only_calls _ getCurrentServicesSet => unfold getCurrentServicesSet
  | |- only_calls _ (getStateDestinationsSet _) =>
      unfold getStateDestinationsSet
  | |- only_calls _ (getCurrentDestinationsSet _) =>
      unfold getCurrentDestinationsSet
  | |- only_calls _ (addServiceAndDestinations _ _) =>
      unfold addServiceAndDestinations
  | |- only_calls _ (syncDestinations _) => unfold syncDestinations
  | |- only_calls _ syncLocked => unfold syncLocked
  | |- ∀ _, _ => intros ?
  end.

Section helpers.
Context (o : Oracle).

Lemma post_getStateServicesSet w
    (Q : gset Service.t → World → list Event → Prop) :
  Q (normalizedServices (state.GetServices (desired w)))
    (record_call StateGetServices None w) [(StateGetServices, None)] →
  post o getStateServicesSet w Q.
Proof.
  intros HQ. apply post_mbind, post_StateGetServices, post_ret.
  unfold mapset.NewSet. rewrite foldl_state_services, union_empty_r_L.
  done.
Qed.

Lemma post_getCurrentServicesSet w
    (Q : error + gset Service.t → World → list Event → Prop) :
  (∀ err, Q (inl err) (record_call KGetServices (Some err) w)
            [(KGetServices, Some err)]) →
  Q (inr (normalizedServices (liveServices (kernel w))))
    (record_call KGetServices None w) [(KGetServices, None)] →
  post o getCurrentServicesSet w Q.
Proof.
  intros HQe HQ.
  apply post_mbind, post_KGetServices; [intros err |]; apply post_ret.
  - apply HQe.
  - unfold mapset.NewSet.
    by rewrite foldl_current_services, union_empty_r_L, live_services_set.
Qed.

Lemma post_getStateDestinationsSet svc w
    (Q : gset Destination.t → World → list Event → Prop) :
  Q (normalizedDestinations (state.GetDestinations (desired w) svc))
    (record_call (StateGetDestinations svc) None w)
    [(StateGetDestinations svc, None)] →
  post o (getStateDestinationsSet svc) w Q.
Proof.
  intros HQ. apply post_mbind, post_StateGetDestinations, post_ret.
  unfold mapset.NewSet. by rewrite foldl_state_destinations, union_empty_r_L.
Qed.

Lemma post_getCurrentDestinationsSet svc w
    (Q : error + gset Destination.t → World → list Event → Prop) :
  (∀ err, Q (inl err)
            (record_call (KGetService (ToIpvsService svc)) (Some err) w)
            [(KGetService (ToIpvsService svc), Some err)]) →
  Q (inr (normalizedDestinations (liveDestinations (kernel w) svc)))
    (record_call (KGetService (ToIpvsService svc)) None w)
    [(KGetService (ToIpvsService svc), None)] →
  post o (getCurrentDestinationsSet svc) w Q.
Proof.
  intros HQe HQ. unfold getCurrentDestinationsSet.
  apply post_mbind, post_KGetService; [intros err |]; apply post_ret.
  - apply HQe.
  - unfold mapset.NewSet.
    by rewrite foldl_current_destinations, union_empty_r_L,
      live_destinations_set.
Qed.

(** [Sync] is the pass between [Lock] and the deferred [Unlock]. *)
Lemma lockfree_syncDestinations svc : lockfree (syncDestinations svc).
Proof. repeat only_calls_step; by split. Qed.

Lemma lockfree_syncLocked : lockfree syncLocked.
Proof. repeat only_calls_step; by split. Qed.

Lemma post_Sync w (Qb Q : option error → World → list Event → Prop) :
  mutex w = false →
  post o syncLocked (record_call Lock None (set_mutex true w)) Qb →
  (∀ r w1 tr,
     Qb r w1 tr → mutex w1 = true →
     desired w1 = desired w → kernel w1 = replay tr (kernel w) →
     Q r (record_call Unlock None (set_mutex false w1))
       ((Lock, None) :: tr ++ [(Unlock, None)])) →
  post o Sync w Q.
Proof.
  intros Hm Hb HQ. apply post_mbind, post_lock; [done |].
  apply post_mbind.
  eapply post_mono;
    [apply (post_conj _ _ _ _ _ Hb (post_lockfree o _ _ lockfree_syncLocked)) |].
  intros r w1 tr _ Hd Hk [HQb Hm1]. simpl in Hd, Hk, Hm1.
  apply post_mbind, post_unlock; [done |]. apply post_ret.
  rewrite app_nil_r. by apply HQ.
Qed.

Lemma Sync_returns w : mutex w = false → is_Some (run o Sync w).
Proof.
  intros Hm. eapply post_returns, (post_Sync w (λ _ _ _, True) (λ _ _ _, True));
    [done | | done].
  eapply post_mono; [apply (post_lockfree o), lockfree_syncLocked | done].
Qed.
End helpers.

(** One step of a run, by the rule of the program at hand. *)
Ltac post_step :=
  lazymatch goal with
  | |- post _ (Ret _) _ _ => apply post_ret
  | |- post _ (bind _ _) _ _ => apply post_bind
  | |- post _ (_ ≫= _) _ _ => apply post_mbind
  | |- post _ getStateServicesSet _ _ => apply post_getStateServicesSet
  | |- post _ getCurrentServicesSet _ _ =>
      apply post_getCurrentServicesSet; [intros ?err |]
  | |- post _ (getStateDestinationsSet _) _ _ =>
      apply post_getStateDestinationsSet
  | |- post _ (getCurrentDestinationsSet _) _ _ =>
      apply post_getCurrentDestinationsSet; [intros ?err |]
  | |- post _ (call StateGetServices) _ _ => apply post_StateGetServices
  | |- post _ (call (StateGetDestinations _)) _ _ =>
      apply post_StateGetDestinations
  | |- post _ (call (IterServices _)) _ _ =>
      apply post_IterServices; intros ?l ?Hl
  | |- post _ (call (IterDestinations _)) _ _ =>
      apply post_IterDestinations; intros ?l ?Hl
  | |- post _ (call (KMutate _)) _ _ => apply post_KMutate; [intros ?err |]
  end.

(** * Convergence *)

(** ** What the mutations do to the table *)

Lemma dom_apply_AddService k (t : Table) :
  dom (apply_mutation (AddService k) t) = {[k]} ∪ dom t.
Proof.
  simpl. destruct (t !! k) as [ds |] eqn:Hk.
  - apply elem_of_dom_2 in Hk. set_solver.
  - by rewrite dom_insert_L.
Qed.

Lemma dom_apply_DeleteService k (t : Table) :
  dom (apply_mutation (DeleteService k) t) = dom t ∖ {[k]}.
Proof. simpl. by rewrite dom_delete_L. Qed.

Lemma dom_apply_AddDestination k d (t : Table) :
  dom (apply_mutation (AddDestination k d) t) = dom t.
Proof. simpl. by rewrite dom_alter_L. Qed.

Lemma dom_apply_DeleteDestination k d (t : Table) :
  dom (apply_mutation (DeleteDestination k d) t) = dom t.
Proof. simpl. by rewrite dom_alter_L. Qed.

(** Applying a difference: start from the keys [ks], add the translation of
    what is wanted and missing, remove the translation of what is there and
    not wanted; read back, this is what is wanted. *)
Lemma apply_difference `{Countable A, Countable K}
    (to : A → K) (from : K → A) (S : gset A) (ks : gset K) :
  (∀ k, to (from k) = k) →
  (∀ x, x ∈ S → from (to x) = x) →
  let C : gset A := set_map from ks in
  set_map (D:=gset A) from
    ((ks ∪ set_map (D:=gset K) to (S ∖ C)) ∖ set_map (D:=gset K) to (C ∖ S))
  = S.
Proof.
  intros Htf Hft C. apply set_eq. intros x.
  rewrite elem_of_map. split.
  - intros (k & -> & [[Hk | Hk]%elem_of_union Hnk]%elem_of_difference).
    + destruct (decide (from k ∈ S)) as [| Hn]; [done |]. exfalso.
      apply Hnk, elem_of_map. exists (from k). split; [by rewrite Htf |].
      apply elem_of_difference. split; [| done]. apply elem_of_map; eauto.
    + apply elem_of_map in Hk as (y & -> & [Hy _]%elem_of_difference).
      by rewrite Hft.
  - intros Hx. exists (to x). split; [by rewrite Hft |].
    apply elem_of_difference. split.
    + destruct (decide (x ∈ C)) as [(k & -> & Hk)%elem_of_map | Hn].
      * rewrite Htf. set_solver.
      * apply elem_of_union_r, elem_of_map. exists x. set_solver.
    + intros (y & Hy & [(k & -> & Hk)%elem_of_map Hn]%elem_of_difference)%elem_of_map.
      rewrite Htf in Hy. subst k. by rewrite Hft in Hn.
Qed.

Lemma live_services_dom (t : Table) :
  normalizedServices (liveServices t) = set_map FromService (dom t).
Proof.
  apply set_eq. intros x. rewrite elem_of_live_services, elem_of_map.
  naive_solver.
Qed.

Lemma live_destinations_lookup (t : Table) s :
  normalizedDestinations (liveDestinations t s)
  = set_map fromDestination (default ∅ (t !! ToIpvsService s)).
Proof.
  apply set_eq. intros x. rewrite elem_of_live_destinations, elem_of_map.
  destruct (t !! ToIpvsService s) as [ds |]; simpl; [naive_solver |].
  set_solver.
Qed.

Lemma list_to_set_fmap_perm `{Countable A, Countable B} (f : A → B)
    (l : list A) (X : gset A) :
  l ≡ₚ elements X → list_to_set (f <$> l) = set_map (D:=gset B) f X.
Proof. intros Hl. unfold set_map. by rewrite Hl. Qed.

Section convergence.
Context (o : Oracle).

Lemma post_addServiceAndDestinations_dom svc dsts w :
  post o (addServiceAndDestinations svc dsts) w (λ r w' _,
    r = None → dom (kernel w') = {[ToIpvsService svc]} ∪ dom (kernel w)).
Proof.
  unfold addServiceAndDestinations.
  apply post_bind, post_KMutate; [intros err; by apply post_ret |].
  apply (post_forEach o _ _ _
    (λ _ w1 _, dom (kernel w1) = {[ToIpvsService svc]} ∪ dom (kernel w))).
  - cbn [kernel record_call set_kernel set_mutex]. apply dom_apply_AddService.
  - intros done d rest w1 tr1 _ HI.
    apply post_KMutate; [done |]. cbn [kernel record_call set_kernel set_mutex].
    by rewrite dom_apply_AddDestination.
  - done.
Qed.

(** The loop that adds the missing services. *)
Lemma post_add_services_dom (toAdd : list Service.t) w :
  post o (forEach toAdd (λ service,
            dsts ← call (StateGetDestinations service);
            addServiceAndDestinations service dsts)) w (λ r w' _,
    r = None →
    dom (kernel w') = dom (kernel w) ∪ list_to_set (ToIpvsService <$> toAdd)).
Proof.
  apply (post_forEach o _ _ _
    (λ done w1 _,
       dom (kernel w1)
       = dom (kernel w) ∪ list_to_set (ToIpvsService <$> done))).
  - set_solver.
  - intros done s rest w1 tr1 _ HI.
    apply post_mbind, post_StateGetDestinations.
    eapply post_mono; [apply post_addServiceAndDestinations_dom |].
    intros [err |] w2 tr2 _ _ _ Hdom; [done |].
    rewrite Hdom by done. cbn [kernel record_call set_kernel set_mutex]. rewrite HI, fmap_app. set_solver.
  - done.
Qed.

(** The loop that removes the services no longer wanted. *)
Lemma post_remove_services_dom (toRemove : list Service.t) w :
  post o (forEach toRemove (λ service,
            call (KMutate (DeleteService (ToIpvsService service))))) w
    (λ r w' _,
       r = None →
       dom (kernel w')
       = dom (kernel w) ∖ list_to_set (ToIpvsService <$> toRemove)).
Proof.
  apply (post_forEach o _ _ _
    (λ done w1 _,
       dom (kernel w1)
       = dom (kernel w) ∖ list_to_set (ToIpvsService <$> done))).
  - set_solver.
  - intros done s rest w1 tr1 _ HI.
    apply post_KMutate; [done |]. cbn [kernel record_call set_kernel set_mutex].
    rewrite dom_apply_DeleteService, HI, fmap_app. set_solver.
  - done.
Qed.
End convergence.

Section convergence_next.
Context (o : Oracle).

Lemma post_add_destinations_kernel k (toAdd : list Destination.t) w :
  post o (forEach toAdd (λ destination,
            call (KMutate (AddDestination k
                             (ToIpvsDestination destination))))) w
    (λ r w' _,
       r = None →
       kernel w'
       = alter (λ ds, ds ∪ list_to_set (ToIpvsDestination <$> toAdd)) k
           (kernel w)).
Proof.
  apply (post_forEach o _ _ _
    (λ done w1 _,
       kernel w1
       = alter (λ ds, ds ∪ list_to_set (ToIpvsDestination <$> done)) k
           (kernel w))).
  - symmetry. apply alter_id. intros ds _. set_solver.
  - intros done d rest w1 tr1 _ HI.
    apply post_KMutate; [done |]. cbn [kernel record_call set_kernel].
    rewrite HI. simpl. rewrite alter_alter_eq. apply alter_ext.
    intros ds _. simpl. rewrite fmap_app. set_solver.
  - done.
Qed.

Lemma post_remove_destinations_kernel k (toRemove : list Destination.t) w :
  post o (forEach toRemove (λ destination,
            call (KMutate (DeleteDestination k
                             (ToIpvsDestination destination))))) w
    (λ r w' _,
       r = None →
       kernel w'
       = alter (λ ds, ds ∖ list_to_set (ToIpvsDestination <$> toRemove)) k
           (kernel w)).
Proof.
  apply (post_forEach o _ _ _
    (λ done w1 _,
       kernel w1
       = alter (λ ds, ds ∖ list_to_set (ToIpvsDestination <$> done)) k
           (kernel w))).
  - symmetry. apply alter_id. intros ds _. set_solver.
  - intros done d rest w1 tr1 _ HI.
    apply post_KMutate; [done |]. cbn [kernel record_call set_kernel].
    rewrite HI. simpl. rewrite alter_alter_eq. apply alter_ext.
    intros ds _. simpl. rewrite fmap_app. set_solver.
  - done.
Qed.

(** One service's destinations after its reconciliation: the entry of the
    service has the missing destinations added and the unwanted ones
    removed; the rest of the table is as before. *)
Lemma post_syncDestinations_kernel svc w :
  post o (syncDestinations svc) w (λ r w' _,
    r = None →
    kernel w'
    = alter (λ ds,
        (ds ∪ set_map ToIpvsDestination
                (destinationsToAdd (desired w) (kernel w) svc))
          ∖ set_map ToIpvsDestination
              (destinationsToRemove (desired w) (kernel w) svc))
        (ToIpvsService svc) (kernel w)).
Proof.
  unfold syncDestinations.
  apply post_mbind, post_getStateDestinationsSet.
  apply post_mbind, post_getCurrentDestinationsSet;
    [intros err; by apply post_ret |].
  cbn [kernel desired record_call]. unfold mapset.Difference.
  apply post_mbind, post_IterDestinations. intros la Hla.
  apply post_bind.
  eapply post_mono; [apply post_add_destinations_kernel |].
  intros [err |] w1 tr1 _ _ _ Hk1; [by apply post_ret |].
  apply post_mbind, post_IterDestinations. intros lr Hlr.
  apply post_bind.
  eapply post_mono; [apply post_remove_destinations_kernel |].
  intros [err |] w2 tr2 _ _ _ Hk2; apply post_ret; [done |]. intros _.
  rewrite Hk2 by done. cbn [kernel record_call]. rewrite Hk1 by done.
  cbn [kernel record_call]. rewrite alter_alter_eq. apply alter_ext.
  intros ds _. simpl.
  by rewrite (list_to_set_fmap_perm _ _ _ Hla),
    (list_to_set_fmap_perm _ _ _ Hlr).
Qed.

Lemma post_syncDestinations_converges svc w :
  post o (syncDestinations svc) w (λ r w' _,
    r = None →
    dom (kernel w') = dom (kernel w) ∧
    (∀ k, k ≠ ToIpvsService svc → kernel w' !! k = kernel w !! k) ∧
    (ToIpvsService svc ∈ dom (kernel w) →
     normalizedDestinations (liveDestinations (kernel w') svc)
     = normalizedDestinations (state.GetDestinations (desired w) svc))).
Proof.
  eapply post_mono; [apply post_syncDestinations_kernel |].
  intros r w' tr _ _ _ Hk ->. rewrite Hk by done. clear Hk.
  split; [by rewrite dom_alter_L |]. split.
  - intros k Hne. by rewrite lookup_alter_ne.
  - intros [ds Hds]%elem_of_dom.
    rewrite live_destinations_lookup, lookup_alter_eq, Hds. simpl.
    unfold destinationsToAdd, destinationsToRemove.
    rewrite live_destinations_lookup, Hds. simpl.
    apply (apply_difference ToIpvsDestination fromDestination).
    + apply ToIpvsDestination_fromDestination.
    + intros x Hx. rewrite fromDestination_ToIpvsDestination.
      by eapply normalizedDestinations_normal.
Qed.
End convergence_next.

Section convergence_next.
Context (o : Oracle).

Lemma live_destinations_key (t t' : Table) s s' :
  t' !! ToIpvsService s' = t !! ToIpvsService s →
  normalizedDestinations (liveDestinations t' s')
  = normalizedDestinations (liveDestinations t s).
Proof. intros H. by rewrite !live_destinations_lookup, H. Qed.

(** The pass over the destinations of every desired service. *)
Lemma post_sync_all_destinations (svcs : list Service.t) w :
  (∀ s1 s2, s1 ∈ svcs → s2 ∈ svcs →
     ToIpvsService s1 = ToIpvsService s2 →
     normalizedDestinations (state.GetDestinations (desired w) s1)
     = normalizedDestinations (state.GetDestinations (desired w) s2)) →
  post o (forEach svcs syncDestinations) w (λ r w' _,
    r = None →
    dom (kernel w') = dom (kernel w) ∧
    ∀ s, s ∈ svcs → ToIpvsService s ∈ dom (kernel w) →
      normalizedDestinations (liveDestinations (kernel w') s)
      = normalizedDestinations (state.GetDestinations (desired w) s)).
Proof.
  intros Hsame.
  apply (post_forEach o _ _ _
    (λ done w1 _,
       desired w1 = desired w ∧ dom (kernel w1) = dom (kernel w) ∧
       ∀ s, s ∈ done → ToIpvsService s ∈ dom (kernel w) →
         normalizedDestinations (liveDestinations (kernel w1) s)
         = normalizedDestinations (state.GetDestinations (desired w) s))).
  - split; [done |]. split; [done |]. by intros s ?%elem_of_nil.
  - intros done x rest w1 tr1 Hl (Hd1 & Hdom1 & Hdone).
    eapply post_mono; [apply post_syncDestinations_converges |].
    intros [err |] w2 tr2 _ Hd2 _ Hpost; [done |].
    destruct Hpost as (Hdom2 & Hother & Hx); [done |].
    split; [congruence |]. split; [congruence |].
    intros s Hs Hin.
    destruct (decide (ToIpvsService s = ToIpvsService x)) as [Heq | Hne].
    + rewrite (live_destinations_key (kernel w2) (kernel w2) x s)
        by (by rewrite Heq).
      rewrite Hx by (by rewrite Hdom1, <- Heq). rewrite Hd1.
      apply Hsame; [| | done]; subst svcs.
      * apply elem_of_app. right. left.
      * apply elem_of_app in Hs as [Hs | ->%list_elem_of_singleton].
        -- apply elem_of_app. by left.
        -- apply elem_of_app. right. left.
    + apply elem_of_app in Hs as [Hs | ->%list_elem_of_singleton]; [| done].
      rewrite (live_destinations_key (kernel w1) (kernel w2) s s)
        by (by apply Hother).
      by apply Hdone.
  - intros w' tr (_ & Hdom & Hall) _. by split.
Qed.

Lemma identity_unique_destinations D s1 s2 :
  identity_unique D →
  s1 ∈ state.GetServices D → s2 ∈ state.GetServices D →
  ToIpvsService s1 = ToIpvsService s2 →
  normalizedDestinations (state.GetDestinations D s1)
  = normalizedDestinations (state.GetDestinations D s2).
Proof.
  intros Hu H1 H2 Heq%ToIpvsService_eq. by rewrite (Hu s1 s2 H1 H2 Heq).
Qed.

(** The pass proper: when it reports no error, the table agrees with the
    desired state. *)
Lemma post_syncLocked_converges w :
  identity_unique (desired w) →
  post o syncLocked w (λ r w' _,
    r = None → converged (desired w) (kernel w')).
Proof.
  intros Hu. unfold syncLocked.
  apply post_mbind, post_getStateServicesSet.
  apply post_mbind, post_getCurrentServicesSet;
    [intros err; by apply post_ret |].
  cbn [kernel desired record_call]. unfold mapset.Difference.
  set (S := normalizedServices (state.GetServices (desired w))).
  set (C := normalizedServices (liveServices (kernel w))).
  apply post_mbind, post_IterServices. intros la Hla.
  apply post_bind.
  eapply post_mono; [apply post_add_services_dom |].
  intros [err |] w1 tr1 _ Hd1 _ Hk1; [by apply post_ret |].
  apply post_mbind, post_IterServices. intros lr Hlr.
  apply post_bind.
  eapply post_mono; [apply post_remove_services_dom |].
  intros [err |] w2 tr2 _ Hd2 _ Hk2; [by apply post_ret |].
  apply post_mbind, post_StateGetServices.
  cbn [kernel desired record_call] in *.
  assert (Hdes : desired w2 = desired w) by congruence.
  assert (Hlive : normalizedServices (liveServices (kernel w2)) = S).
  { rewrite live_services_dom, Hk2, Hk1 by done.
    rewrite (list_to_set_fmap_perm _ _ _ Hla),
      (list_to_set_fmap_perm _ _ _ Hlr).
    unfold C. rewrite live_services_dom.
    apply (apply_difference ToIpvsService FromService).
    - apply ToIpvsService_FromService.
    - intros x Hx. rewrite FromService_ToIpvsService.
      by eapply normalizedServices_normal. }
  eapply post_mono.
  { apply post_sync_all_destinations. cbn [desired record_call].
    rewrite Hdes. intros s1 s2 ? ?.
    by apply identity_unique_destinations. }
  intros r w3 tr3 _ _ _ Hpost ->. destruct Hpost as [Hdom3 Hall]; [done |].
  cbn [kernel desired record_call] in *. rewrite Hdes in *. split.
  - by rewrite live_services_dom, Hdom3, <- live_services_dom.
  - intros s Hs. apply Hall; [done |].
    assert (Hin : normalizeService s ∈ S).
    { apply elem_of_normalizedServices. eauto. }
    rewrite <- Hlive in Hin.
    apply elem_of_live_services in Hin as (k & Hk & Heq).
    rewrite <- FromService_ToIpvsService in Heq.
    apply (f_equal ToIpvsService) in Heq.
    rewrite !ToIpvsService_FromService in Heq. by subst k.
Qed.
End convergence_next.

Lemma Sync_needs_mutex o (w : World) :
  is_Some (run o Sync w) → mutex w = false.
Proof.
  destruct (mutex w) eqn:Hm; [| done]. simpl. rewrite Hm.
  by intros [? ?].
Qed.

Lemma Sync_post_converges o w :
  mutex w = false → identity_unique (desired w) →
  post o Sync w (λ r w' _, r = None → converged (desired w) (kernel w')).
Proof.
  intros Hm Hu. eapply post_Sync; [done | |].
  - by apply post_syncLocked_converges.
  - intros r w1 tr HQ _ _ _. apply HQ.
Qed.

(** C1, as the code has it. Convergence: whatever the desired state (with
    the identity of its services unique, as the data model has it) and
    whatever the live table, a pass of [Sync] that returns no error leaves
    the normalized set of live services equal to the normalized set of
    desired services, and for every desired service the normalized sets of
    live and of desired destinations equal. The kernel adapter is taken to honour its contract: a call that
    reports no error has been carried out. *)
Theorem Sync_converges o w w' :
  identity_unique (desired w) →
  run o Sync w = Some (None, w') →
  normalizedServices (liveServices (kernel w'))
    = normalizedServices (state.GetServices (desired w)) ∧
  ∀ s, s ∈ state.GetServices (desired w) →
    normalizedDestinations (liveDestinations (kernel w') s)
      = normalizedDestinations (state.GetDestinations (desired w) s).
Proof.
  intros Hu Hrun.
  assert (Hm : mutex w = false).
  { apply (Sync_needs_mutex o w). by rewrite Hrun. }
  destruct (post_elim o _ _ _ _ _ (Sync_post_converges o w Hm Hu) Hrun)
    as (tr & _ & _ & _ & Hc).
  by apply Hc.
Qed.

Lemma identity_unique_web : identity_unique desired_web.
Proof.
  intros s1 s2 H1 H2 _. simpl in H1, H2.
  apply list_elem_of_singleton in H1, H2. congruence.
Defined.

Lemma Sync_converges_witness :
  ∃ w', run calm Sync world_web = Some (None, w') ∧
        converged desired_web (kernel w').
Proof.
  assert (Hr : fst <$> run calm Sync world_web = Some None)
    by (vm_compute; reflexivity).
  destruct (run calm Sync world_web) as [[r w'] |] eqn:Hrun; [| done].
  simpl in Hr. injection Hr as ->. exists w'. split; [done |].
  exact (Sync_converges calm world_web w' identity_unique_web Hrun).
Defined.

(** C1, as it was stated, fails when two desired services share the
    identity: [svc_web] and [svc_www] differ in name only. The pass returns
    no error; it has reconciled the one kernel service first with the
    destinations of the one, then with those of the other, so the table
    ends with the destination of [svc_www] and [svc_web] has not got its
    own. *)
Lemma convergence_needs_unique_identity :
  ∃ w', run calm Sync world_twins = Some (None, w') ∧
        svc_web ∈ state.GetServices (desired world_twins) ∧
        normalizedDestinations (liveDestinations (kernel w') svc_web)
        ≠ normalizedDestinations
            (state.GetDestinations (desired world_twins) svc_web).
Proof.
  assert (Hr : (λ rw : option error * World,
                  (rw.1,
                   bool_decide
                     (normalizedDestinations
                        (liveDestinations (kernel rw.2) svc_web)
                      = normalizedDestinations
                          (state.GetDestinations desired_twins svc_web))))
               <$> run calm Sync world_twins = Some (None, false))
    by (vm_compute; reflexivity).
  destruct (run calm Sync world_twins) as [[r w'] |]; [| discriminate Hr].
  simpl in Hr. injection Hr as -> Hne%bool_decide_eq_false.
  exists w'. split; [reflexivity |]. split; [| exact Hne].
  apply list_elem_of_here.
Qed.

(** * Failures *)

Section failing.
Context (o : Oracle).

Lemma failfast_app r tr1 tr2 :
  Forall succeeded tr1 → failfast r tr2 → failfast r (tr1 ++ tr2).
Proof.
  intros H1. destruct r as [err |]; simpl.
  - intros (pre & c & -> & Hpre & Hc). exists (tr1 ++ pre), c.
    rewrite app_assoc. split; [done |]. split; [| done].
    by apply Forall_app.
  - intros H2. by apply Forall_app.
Qed.

Lemma failfast_call c r : is_kernel_call c → failfast r [(c, r)].
Proof.
  intros Hc. destruct r as [err |]; simpl.
  - by exists [], c.
  - by repeat constructor.
Qed.

Lemma failfast_cons r ev tr :
  succeeded ev → failfast r tr → failfast r (ev :: tr).
Proof. intros. apply (failfast_app r [ev]); [by constructor | done]. Qed.

Lemma failfast_nil : failfast None [].
Proof. constructor. Qed.

Ltac failfast_tac :=
  rewrite ?app_nil_r; cbn [app];
  repeat first
    [ assumption
    | apply failfast_nil
    | apply failfast_call; done
    | apply failfast_cons; [done |]
    | apply failfast_app; [assumption |] ].

Lemma post_forEach_failfast {A} (body : A → Prog (option error)) l w :
  (∀ x w1, post o (body x) w1 (λ r _ tr, failfast r tr)) →
  post o (forEach l body) w (λ r _ tr, failfast r tr).
Proof.
  intros Hb.
  apply (post_forEach o _ _ _ (λ _ _ tr, Forall succeeded tr)).
  - constructor.
  - intros done x rest w1 tr1 _ H1.
    eapply post_mono; [apply Hb |].
    intros [err |] w2 tr2 _ _ _ H2;
      [by apply failfast_app | by apply (failfast_app None)].
  - done.
Qed.

Lemma post_calls_failfast {A} (f : A → Mutation) l w :
  post o (forEach l (λ x, call (KMutate (f x)))) w (λ r _ tr, failfast r tr).
Proof.
  apply post_forEach_failfast. intros x w1. by repeat post_step; failfast_tac.
Qed.

Lemma post_addServiceAndDestinations_failfast svc dsts w :
  post o (addServiceAndDestinations svc dsts) w (λ r _ tr, failfast r tr).
Proof.
  unfold addServiceAndDestinations. repeat post_step; [by failfast_tac |].
  eapply post_mono; [apply (post_calls_failfast (λ d, AddDestination _ _)) |].
  intros r w2 tr2 _ _ _ H2. by failfast_tac.
Qed.

Lemma post_syncDestinations_failfast svc w :
  post o (syncDestinations svc) w (λ r _ tr, failfast r tr).
Proof.
  unfold syncDestinations. repeat post_step; [by failfast_tac |].
  eapply post_mono; [apply (post_calls_failfast (λ d, AddDestination _ _)) |].
  intros [err |] w1 tr1 _ _ _ H1; repeat post_step; [by failfast_tac |].
  eapply post_mono;
    [apply (post_calls_failfast (λ d, DeleteDestination _ _)) |].
  intros [err |] w2 tr2 _ _ _ H2; repeat post_step; by failfast_tac.
Qed.

Lemma post_syncLocked_failfast w :
  post o syncLocked w (λ r _ tr, failfast r tr).
Proof.
  unfold syncLocked. repeat post_step; [by failfast_tac |].
  eapply post_mono.
  { apply post_forEach_failfast. intros s w1. repeat post_step.
    eapply post_mono; [apply post_addServiceAndDestinations_failfast |].
    intros r w2 tr2 _ _ _ H2. by failfast_tac. }
  intros [err |] w1 tr1 _ _ _ H1; repeat post_step; [by failfast_tac |].
  eapply post_mono; [apply (post_calls_failfast (λ s, DeleteService _)) |].
  intros [err |] w2 tr2 _ _ _ H2; repeat post_step; [by failfast_tac |].
  eapply post_mono.
  { apply post_forEach_failfast. intros s w3.
    apply post_syncDestinations_failfast. }
  intros r w3 tr3 _ _ _ H3. by failfast_tac.
Qed.
End failing.

Lemma replay_unsuccessful c err t : replay [(c, Some err)] t = t.
Proof. by destruct c. Qed.

Lemma replay_unlock t : replay [(Unlock, None)] t = t.
Proof. done. Qed.

Lemma failed_event_unique (pre post' : list Event) c err c' err' :
  Forall succeeded pre → Forall succeeded post' →
  (c', Some err') ∈ pre ++ (c, Some err) :: post' →
  c' = c ∧ err' = err.
Proof.
  intros Hpre Hpost [Hin | [Heq | Hin]%elem_of_cons]%elem_of_app.
  - by apply (proj1 (Forall_forall _ _) Hpre) in Hin.
  - by simplify_eq.
  - by apply (proj1 (Forall_forall _ _) Hpost) in Hin.
Qed.

Lemma Sync_post_failfast o w :
  mutex w = false →
  post o Sync w (λ r _ tr,
    ∃ body, tr = (Lock, None) :: body ++ [(Unlock, None)] ∧ failfast r body).
Proof.
  intros Hm. eapply post_Sync; [done | apply post_syncLocked_failfast |].
  intros r w1 tr Hff _ _ _. by exists tr.
Qed.

(** The pure content of failing fast, for a pass between [Lock] and
    [Unlock]. *)
Lemma failed_call_ends_pass r body c err t :
  failfast r body →
  (c, Some err) ∈ (Lock, None) :: body ++ [(Unlock, None)] →
  r = Some err ∧
  ∃ pre,
    (Lock, None) :: body ++ [(Unlock, None)]
    = pre ++ [(c, Some err); (Unlock, None)] ∧
    Forall succeeded pre ∧
    replay ((Lock, None) :: body ++ [(Unlock, None)]) t = replay pre t.
Proof.
  intros Hff Hin. destruct r as [err0 |]; simpl in Hff.
  - destruct Hff as (pre & c0 & -> & Hpre & Hc0).
    assert (Hin' : (c, Some err) ∈
              ((Lock, None) :: pre) ++ (c0, Some err0) :: [(Unlock, None)]).
    { by rewrite <- app_assoc in Hin. }
    apply failed_event_unique in Hin' as [-> ->];
      [| by constructor | by repeat constructor].
    split; [done |]. exists ((Lock, None) :: pre).
    split; [by rewrite <- app_assoc |]. split; [by constructor |].
    change ((Lock, None) :: (pre ++ [(c0, Some err0)]) ++ [(Unlock, None)])
      with (((Lock, None) :: pre ++ [(c0, Some err0)]) ++ [(Unlock, None)]).
    rewrite replay_app, replay_unlock.
    change ((Lock, None) :: pre ++ [(c0, Some err0)])
      with (((Lock, None) :: pre) ++ [(c0, Some err0)]).
    by rewrite replay_app, replay_unsuccessful.
  - exfalso.
    assert (Hall : Forall succeeded
              ((Lock, None) :: body ++ [(Unlock, None)])).
    { constructor; [done |]. apply Forall_app. by repeat constructor. }
    by apply (proj1 (Forall_forall _ _) Hall) in Hin.
Qed.

(** C6. An adapter call that fails ends the pass: [Sync] returns the error
    of that call, the call is the last one of the pass (only the deferred
    [Unlock] follows, so nothing is retried and no other call is made), all
    calls before it had succeeded, and the table is the one those calls
    left (nothing is undone). Conversely an error that [Sync] returns is the
    error of a failed call on the kernel. *)
Theorem Sync_fails_fast o w :
  mutex w = false →
  ∃ r w' tr,
    run o Sync w = Some (r, w') ∧ log w' = log w ++ tr ∧
    (∀ c err, (c, Some err) ∈ tr →
       r = Some err ∧
       ∃ pre, tr = pre ++ [(c, Some err); (Unlock, None)] ∧
              Forall succeeded pre ∧
              kernel w' = replay pre (kernel w)) ∧
    (∀ err, r = Some err → ∃ c, is_kernel_call c ∧ (c, Some err) ∈ tr).
Proof.
  intros Hm.
  destruct (Sync_post_failfast o w Hm)
    as (r & w' & tr & Hrun & Hlog & _ & Hk & body & -> & Hff).
  exists r, w', ((Lock, None) :: body ++ [(Unlock, None)]).
  split; [done |]. split; [done |]. split.
  - intros c err Hin.
    destruct (failed_call_ends_pass r body c err (kernel w) Hff Hin)
      as (-> & pre & Heq & Hsucc & Hrep).
    split; [done |]. exists pre. split; [done |]. split; [done |].
    rewrite Hk. exact Hrep.
  - intros err ->. destruct Hff as (pre & c0 & -> & _ & Hc0).
    exists c0. split; [done |]. set_solver.
Qed.

Lemma Sync_fails_fast_witness :
  mutex world_web = false ∧
  ∃ r w' tr,
    run (failing_at 5 "EIO") Sync world_web = Some (r, w') ∧
    log w' = log world_web ++ tr ∧
    (∀ c err, (c, Some err) ∈ tr →
       r = Some err ∧
       ∃ pre, tr = pre ++ [(c, Some err); (Unlock, None)] ∧
              Forall succeeded pre ∧
              kernel w' = replay pre (kernel world_web)) ∧
    (∀ err, r = Some err → ∃ c, is_kernel_call c ∧ (c, Some err) ∈ tr).
Proof.
  split; [reflexivity |].
  apply (Sync_fails_fast (failing_at 5 "EIO") world_web). reflexivity.
Defined.

(** The run of the witness does fail: adding the service is refused. *)
Example Sync_fails_fast_run :
  fst <$> run (failing_at 5 "EIO") Sync world_web = Some (Some "EIO").
Proof. by vm_compute. Qed.

Lemma replay_no_mutation tr t :
  Forall (λ ev, ¬ is_mutation ev) tr → replay tr t = t.
Proof.
  induction 1 as [| [c r] tr Hc _ IH]; [done |].
  change ((c, r) :: tr) with ([(c, r)] ++ tr). rewrite replay_app.
  rewrite <- IH at 2. f_equal. by destruct c.
Qed.

(** The listing of the live services is the second call of the pass, made
    once; when it fails nothing follows. *)
Lemma post_syncLocked_listing o w :
  post o syncLocked w (λ _ _ tr,
    ∃ r0 rest,
      tr = (StateGetServices, None) :: (KGetServices, r0) :: rest ∧
      Forall (λ ev, ev.1 ≠ KGetServices) rest ∧
      (is_Some r0 → rest = [])).
Proof.
  unfold syncLocked. do 4 post_step.
  - post_step. exists (Some err), []. by repeat split.
  - eapply post_mono.
    + apply (post_only_calls o (λ c, c ≠ KGetServices)).
      repeat only_calls_step; by repeat split.
    + intros r w' tr _ _ _ [_ Htr]. exists None, tr.
      split; [done |]. split; [done |]. by intros [? ?].
Qed.

Lemma Sync_post_listing o w :
  mutex w = false →
  post o Sync w (λ _ _ tr,
    ∃ r0 rest,
      tr = (Lock, None) :: (StateGetServices, None) :: (KGetServices, r0)
             :: rest ++ [(Unlock, None)] ∧
      Forall (λ ev, ev.1 ≠ KGetServices) rest ∧
      (is_Some r0 → rest = [])).
Proof.
  intros Hm. eapply post_Sync; [done | apply post_syncLocked_listing |].
  intros r w1 tr (r0 & rest & -> & ? & ?) _ _ _. by exists r0, rest.
Qed.

(** C7, as the code has it. A failed read of the live state is surfaced and
    ends the pass at once. When the read is the listing of the live
    services, the table has not been touched. A failed read of the
    destinations of a service comes later in the pass: what the pass had
    changed before stays changed. *)
Theorem read_failure_aborts o w :
  mutex w = false →
  ∃ r w' tr,
    run o Sync w = Some (r, w') ∧ log w' = log w ++ tr ∧
    ∀ c err, is_read c → (c, Some err) ∈ tr →
      r = Some err ∧
      (∃ pre, tr = pre ++ [(c, Some err); (Unlock, None)] ∧
              kernel w' = replay pre (kernel w)) ∧
      (c = KGetServices →
         Forall (λ ev, ¬ is_mutation ev) tr ∧ kernel w' = kernel w).
Proof.
  intros Hm.
  destruct (post_conj o _ _ _ _
              (Sync_post_failfast o w Hm) (Sync_post_listing o w Hm))
    as (r & w' & tr & Hrun & Hlog & _ & Hk
        & (body & Htr & Hff) & (r0 & rest & Htr' & Hrest & Hr0)).
  exists r, w', tr. split; [done |]. split; [done |].
  intros c err Hread Hin.
  assert (Hshape : r = Some err ∧
            ∃ pre, tr = pre ++ [(c, Some err); (Unlock, None)] ∧
                   Forall succeeded pre ∧
                   replay tr (kernel w) = replay pre (kernel w)).
  { rewrite Htr in Hin |- *. by apply failed_call_ends_pass. }
  destruct Hshape as (-> & pre & Hpre & Hsucc & Hrep).
  split; [done |]. split; [exists pre; split; [done |]; rewrite Hk; exact Hrep |].
  intros ->.
  assert (r0 = Some err) as ->.
  { rewrite Htr' in Hin.
    apply elem_of_cons in Hin as [[=] | Hin].
    apply elem_of_cons in Hin as [[=] | Hin].
    apply elem_of_cons in Hin as [[=] | Hin]; [done |].
    apply elem_of_app in Hin as [Hin | Hin].
    - by apply (proj1 (Forall_forall _ _) Hrest) in Hin.
    - by apply list_elem_of_singleton in Hin. }
  rewrite Hr0 in Htr' by done. rewrite Hk, Htr'. cbn [app].
  split; [| done].
  repeat (apply Forall_cons; split; [by compute |]). constructor.
Qed.

Lemma read_failure_aborts_witness :
  mutex world_web = false ∧
  ∃ r w' tr,
    run (failing_at 2 "EIO") Sync world_web = Some (r, w') ∧
    log w' = log world_web ++ tr ∧
    ∀ c err, is_read c → (c, Some err) ∈ tr →
      r = Some err ∧
      (∃ pre, tr = pre ++ [(c, Some err); (Unlock, None)] ∧
              kernel w' = replay pre (kernel world_web)) ∧
      (c = KGetServices →
         Forall (λ ev, ¬ is_mutation ev) tr ∧ kernel w' = kernel world_web).
Proof.
  split; [reflexivity |].
  apply (read_failure_aborts (failing_at 2 "EIO") world_web). reflexivity.
Defined.

(** C7, as it was stated, fails: the service has been added, then the read
    of its destinations fails; [Sync] returns the error and the table is no
    longer the one the pass started from. *)
Lemma read_failure_after_mutation :
  ∃ w', run (failing_at 9 "EIO") Sync world_web = Some (Some "EIO", w') ∧
        (KGetService (ToIpvsService svc_web), Some "EIO") ∈ log w' ∧
        kernel w' = {[ToIpvsService svc_web := ∅]} ∧
        kernel w' ≠ kernel world_web.
Proof.
  assert (Hr : (λ rw, (rw.1, bool_decide
                        ((KGetService (ToIpvsService svc_web), Some "EIO")
                           ∈ log rw.2),
                       bool_decide
                         (kernel rw.2 = {[ToIpvsService svc_web := ∅]})))
               <$> run (failing_at 9 "EIO") Sync world_web
               = Some (Some "EIO", true, true))
    by (vm_compute; reflexivity).
  destruct (run (failing_at 9 "EIO") Sync world_web) as [[r w'] |]; [| done].
  simpl in Hr. injection Hr as -> Hlog%bool_decide_eq_true
                                 Hk%bool_decide_eq_true.
  exists w'. repeat split; [done | done |].
  rewrite Hk. intros Heq. apply (f_equal (λ t, t !! ToIpvsService svc_web)) in Heq.
  by rewrite lookup_singleton_eq in Heq.
Qed.

(** * Normalization and the difference *)

(** C3. Two services end up as the same element of the sets [Sync] compares
    exactly when they agree on host, port, protocol and scheduler: name and
    mode are blanked before the element is added, the other four fields are
    kept. Likewise two destinations, which are the same element exactly when
    they agree on host, port, weight and forwarding mode; there the name and
    the owning service are blanked. The sets are keyed by the value, so equal
    elements are one element. *)
Theorem normalization_ignores_metadata :
  (∀ s1 s2,
     normalizeService s1 = normalizeService s2 ↔
     Service.Host s1 = Service.Host s2 ∧ Service.Port s1 = Service.Port s2 ∧
     Service.Protocol s1 = Service.Protocol s2 ∧
     Service.Scheduler s1 = Service.Scheduler s2) ∧
  (∀ d1 d2,
     normalizeDestination d1 = normalizeDestination d2 ↔
     Destination.Host d1 = Destination.Host d2 ∧
     Destination.Port d1 = Destination.Port d2 ∧
     Destination.Weight d1 = Destination.Weight d2 ∧
     Destination.Mode d1 = Destination.Mode d2) ∧
  (∀ o w,
     fst <$> run o getStateServicesSet w
     = Some (normalizedServices (state.GetServices (desired w)))) ∧
  (∀ o w svc,
     fst <$> run o (getStateDestinationsSet svc) w
     = Some (normalizedDestinations (state.GetDestinations (desired w) svc))).
Proof.
  split; [| split; [| split]].
  - intros [] [].
    unfold normalizeService, Service.set_Mode, Service.set_Name. cbn.
    split; [by intros [= -> -> -> ->] | by intros (-> & -> & -> & ->)].
  - intros [] [].
    unfold normalizeDestination, Destination.set_ServiceId,
      Destination.set_Name. cbn.
    split; [by intros [= -> -> -> ->] | by intros (-> & -> & -> & ->)].
  - intros o w.
    destruct (post_getStateServicesSet o w (λ X _ _,
                X = normalizedServices (state.GetServices (desired w)))
                eq_refl) as (X & w' & tr & -> & _ & _ & _ & ->).
    done.
  - intros o w svc.
    destruct (post_getStateDestinationsSet o svc w (λ X _ _,
                X = normalizedDestinations
                      (state.GetDestinations (desired w) svc))
                eq_refl) as (X & w' & tr & -> & _ & _ & _ & ->).
    done.
Qed.

(** Two services that differ in name and mode only are one element of the
    set. *)
Example normalization_merges :
  normalizedServices
    [svc_web; Service.mk "www" "10.8.0.1" 80 "tcp" "rr" "route"]
  = {[normalizeService svc_web]}.
Proof.
  apply set_eq. intros x.
  rewrite elem_of_normalizedServices, elem_of_singleton. split.
  - intros (s & Hs & ->).
    apply elem_of_cons in Hs as [-> | Hs]; [done |].
    by apply list_elem_of_singleton in Hs as ->.
  - intros ->. exists svc_web. split; [left | done].
Qed.

(** A different scheduler makes a different element. *)
Example normalization_keeps_scheduler :
  normalizeService svc_web
  ≠ normalizeService (Service.mk "web" "10.8.0.1" 80 "tcp" "wlc" "nat").
Proof. intros [=]. Qed.

Section difference.
Context (o : Oracle).





End difference.




(** * Idempotence *)

Lemma converged_differences D (t : Table) :
  converged D t →
  servicesToAdd D t = ∅ ∧ servicesToRemove D t = ∅ ∧
  ∀ s, s ∈ state.GetServices D →
    destinationsToAdd D t s = ∅ ∧ destinationsToRemove D t s = ∅.
Proof.
  intros [Hs Hd]. unfold servicesToAdd, servicesToRemove. rewrite Hs.
  split; [set_solver |]. split; [set_solver |].
  intros s Hin. unfold destinationsToAdd, destinationsToRemove.
  rewrite (Hd s Hin). set_solver.
Qed.

Lemma quiet_no_mutation tr t : Forall quiet tr → replay tr t = t.
Proof.
  intros H. apply replay_no_mutation. eapply Forall_impl; [exact H |].
  intros [[] r]; by compute.
Qed.

Lemma perm_elements_empty `{Countable A} (l : list A) :
  l ≡ₚ elements (∅ : gset A) → l = [].
Proof. rewrite elements_empty. apply Permutation_nil_r. Qed.

Section idempotence.
Context (o : Oracle).

Lemma post_syncDestinations_quiet svc w :
  normalizedDestinations (liveDestinations (kernel w) svc)
  = normalizedDestinations (state.GetDestinations (desired w) svc) →
  post o (syncDestinations svc) w (λ _ _ tr, Forall quiet tr).
Proof.
  intros Heq. unfold syncDestinations. do 4 post_step.
  { post_step. cbn [app]. repeat (apply Forall_cons; split; [done |]).
    constructor. }
  cbn [kernel desired record_call]. unfold mapset.Difference.
  rewrite Heq, difference_diag_L.
  post_step. post_step. apply perm_elements_empty in Hl as ->.
  cbn [forEach]. repeat post_step.
  apply perm_elements_empty in Hl as ->.
  cbn [forEach]. repeat post_step. cbn [app].
  repeat (apply Forall_cons; split; [done |]). constructor.
Qed.

Lemma post_syncLocked_quiet w :
  converged (desired w) (kernel w) →
  post o syncLocked w (λ _ _ tr, Forall quiet tr).
Proof.
  intros [Hs Hd]. unfold syncLocked. do 4 post_step.
  { post_step. cbn [app]. repeat (apply Forall_cons; split; [done |]).
    constructor. }
  cbn [kernel desired record_call]. unfold mapset.Difference.
  rewrite Hs, difference_diag_L.
  post_step. post_step. apply perm_elements_empty in Hl as ->.
  cbn [forEach]. repeat post_step.
  apply perm_elements_empty in Hl as ->.
  cbn [forEach]. do 3 post_step.
  cbn [kernel desired record_call].
  eapply post_mono.
  - apply (post_forEach o _ _ _
      (λ _ w1 tr, Forall quiet tr ∧ kernel w1 = kernel w
                  ∧ desired w1 = desired w)
      (λ _ _ tr, Forall quiet tr)).
    + by repeat split.
    + intros done x rest w1 tr1 Hsvcs (Hq1 & Hk1 & Hd1).
      eapply post_mono.
      * apply post_syncDestinations_quiet. rewrite Hk1, Hd1. apply Hd.
        rewrite Hsvcs. set_solver.
      * intros r w2 tr2 _ Hd2 Hk2 Hq2.
        assert (Forall quiet (tr1 ++ tr2)) by by apply Forall_app.
        destruct r; [done |]. split; [done |].
        rewrite Hk2, quiet_no_mutation by done. split; congruence.
    + by intros w' tr (? & _).
  - intros r w' tr _ _ _ Hq. cbn [app].
    repeat (apply Forall_cons; split; [done |]). done.
Qed.
End idempotence.

Lemma Sync_post_unlocked o w :
  mutex w = false → post o Sync w (λ _ w' _, mutex w' = false).
Proof.
  intros Hm. eapply (post_Sync o w (λ _ _ _, True)); [done | |].
  - eapply post_mono; [apply post_lockfree, lockfree_syncLocked | done].
  - done.
Qed.

Lemma Sync_post_quiet o w :
  mutex w = false → converged (desired w) (kernel w) →
  post o Sync w (λ _ _ tr, Forall quiet tr).
Proof.
  intros Hm Hc. eapply post_Sync; [done | |].
  - by apply post_syncLocked_quiet.
  - intros r w1 tr Hq _ _ _. constructor; [done |].
    apply Forall_app. by repeat constructor.
Qed.

(** C5, as the code has it. Idempotence: after a pass of [Sync] that
    returned no error, and with the desired state and the table left as
    they are, the differences are empty, for the services and for the destinations of every desired
    service; a second pass hands only empty sets to its loops, makes no
    mutating call, and leaves the table as it is. The desired state has the
    identity of its services unique, as the data model has it. *)
Theorem Sync_idempotent o1 o2 w w1 :
  identity_unique (desired w) →
  run o1 Sync w = Some (None, w1) →
  (servicesToAdd (desired w1) (kernel w1) = ∅ ∧
   servicesToRemove (desired w1) (kernel w1) = ∅ ∧
   ∀ s, s ∈ state.GetServices (desired w1) →
     destinationsToAdd (desired w1) (kernel w1) s = ∅ ∧
     destinationsToRemove (desired w1) (kernel w1) s = ∅) ∧
  ∃ r w2 tr,
    run o2 Sync w1 = Some (r, w2) ∧ log w2 = log w1 ++ tr ∧
    Forall quiet tr ∧ kernel w2 = kernel w1 ∧ desired w2 = desired w.
Proof.
  intros Hu Hrun.
  assert (Hm : mutex w = false).
  { apply (Sync_needs_mutex o1 w). by rewrite Hrun. }
  destruct (post_elim o1 _ _ _ _ _
              (post_conj o1 _ _ _ _ (Sync_post_converges o1 w Hm Hu)
                 (Sync_post_unlocked o1 w Hm)) Hrun)
    as (tr1 & _ & Hd1 & _ & Hc & Hm1).
  specialize (Hc eq_refl). rewrite <- Hd1 in Hc.
  split; [by apply converged_differences |].
  destruct (Sync_post_quiet o2 w1 Hm1 Hc)
    as (r & w2 & tr & Hrun2 & Hlog2 & Hd2 & Hk2 & Hq).
  exists r, w2, tr. split; [done |]. split; [done |]. split; [done |].
  split; [| congruence]. by rewrite Hk2, quiet_no_mutation.
Qed.

Lemma Sync_idempotent_witness :
  ∃ w1, run calm Sync world_web = Some (None, w1) ∧
    ∃ r w2 tr,
      run calm Sync w1 = Some (r, w2) ∧ log w2 = log w1 ++ tr ∧
      Forall quiet tr ∧ kernel w2 = kernel w1 ∧
      desired w2 = desired world_web.
Proof.
  assert (Hr : fst <$> run calm Sync world_web = Some None)
    by (vm_compute; reflexivity).
  destruct (run calm Sync world_web) as [[r w1] |] eqn:Hrun; [| done].
  simpl in Hr. injection Hr as ->. exists w1. split; [done |].
  exact (proj2 (Sync_idempotent calm calm world_web w1
                  identity_unique_web Hrun)).
Defined.


(** In the witness the first pass adds the service and its destination; the
    second pass adds nothing to these two mutations. *)
Example Sync_twice_mutations :
  (λ rw, length (filter (λ ev, is_mutation ev) (log rw.2))) <$>
    (run calm Sync world_web ≫= λ rw, run calm Sync rw.2)
  = Some 2.
Proof. vm_compute. reflexivity. Qed.

(** C5, as it was stated, fails when two desired services share the
    identity: after a first pass without error over [svc_web] and
    [svc_www], the second pass finds the destination of [svc_www] under
    [svc_web] and the other way round at its turn, and makes four
    mutations. *)
Lemma second_pass_mutates :
  ∃ w1 w2,
    run calm Sync world_twins = Some (None, w1) ∧
    run calm Sync w1 = Some (None, w2) ∧
    desired w1 = desired world_twins ∧
    length (filter (λ ev, is_mutation ev) (drop (length (log w1)) (log w2)))
    = 4.
Proof.
  assert (Hr : (λ rw : option error * World,
                  (rw.1,
                   (λ rw2 : option error * World,
                      (rw2.1,
                       length (filter (λ ev, is_mutation ev)
                                 (drop (length (log rw.2)) (log rw2.2)))))
                   <$> run calm Sync rw.2))
               <$> run calm Sync world_twins
               = Some (None, Some (None, 4)))
    by (vm_compute; reflexivity).
  apply fmap_Some in Hr as ([r w1] & H1 & Hp).
  apply pair_equal_spec in Hp as [Hr1 Hp]. cbn [fst snd] in Hr1, Hp.
  subst r. symmetry in Hp.
  apply fmap_Some in Hp as ([r2 w2] & H2 & Hp).
  apply pair_equal_spec in Hp as [Hr2 Hn]. cbn [fst snd] in Hr2, Hn.
  subst r2. exists w1, w2. split; [exact H1 |]. split; [exact H2 |].
  split; [| by symmetry].
  destruct (Sync_post_unlocked calm world_twins eq_refl)
    as (r & w & tr & Hrun & _ & Hd & _).
  rewrite H1 in Hrun. injection Hrun as _ <-. exact Hd.
Qed.

(** * What the loops are handed *)

Lemma afq_none X tr :
  Forall (λ ev, ¬ is_add_service ev) tr → adds_follow_queries X tr.
Proof.
  intros H pre k r post ->. exfalso.
  apply Forall_app in H as [_ H]. by apply Forall_cons in H as [H _].
Qed.

Lemma afq_app X tr1 tr2 :
  adds_follow_queries X tr1 → adds_follow_queries X tr2 →
  adds_follow_queries X (tr1 ++ tr2).
Proof.
  intros H1 H2 pre k r post Heq.
  apply app_eq_inv in Heq as [(m & -> & Hpost) | (m & -> & ->)].
  - destruct m as [| e m]; simpl in Hpost.
    + destruct (H2 [] k r post) as (pre' & s & Hnil & _); [done |].
      by destruct pre'.
    + injection Hpost as <- ->. by apply (H1 pre k r m).
  - destruct (H2 m k r post eq_refl) as (pre' & s & -> & ? & ?).
    exists (tr1 ++ pre'), s. by rewrite app_assoc.
Qed.

Lemma afq_block X s r rest :
  s ∈ X → Forall (λ ev, ¬ is_add_service ev) rest →
  adds_follow_queries X
    ((StateGetDestinations s, None)
       :: (KMutate (AddService (ToIpvsService s)), r) :: rest).
Proof.
  intros Hs Hrest pre k r0 post Heq.
  destruct pre as [| e1 [| e2 pre]]; simpl in Heq.
  - discriminate Heq.
  - injection Heq as <- <- <- <-. by exists [], s.
  - injection Heq as <- <- ->. exfalso.
    apply Forall_app in Hrest as [_ H].
    by apply Forall_cons in H as [H _].
Qed.

Lemma not_add_service_events tr :
  Forall (λ ev : Event, not_add_service ev.1) tr →
  Forall (λ ev, ¬ is_add_service ev) tr.
Proof.
  intros H. eapply Forall_impl; [exact H |].
  intros [c r]. unfold is_add_service. simpl.
  destruct c as [| | | | | | | | []]; simpl; tauto.
Qed.

Lemma state_service_stripped s (svcs : list Service.t) :
  s ∈ normalizedServices svcs → Service.Name s = "" ∧ Service.Mode s = "".
Proof. rewrite elem_of_normalizedServices. by intros (s0 & _ & ->). Qed.

Lemma state_destination_stripped d (dsts : list Destination.t) :
  d ∈ normalizedDestinations dsts →
  Destination.Name d = "" ∧ Destination.ServiceId d = "".
Proof. rewrite elem_of_normalizedDestinations. by intros (d0 & _ & ->). Qed.

Lemma current_service_stripped s (ks : list gipvs.Service) :
  s ∈ (list_to_set (FromService <$> ks) : gset Service.t) →
  Service.Name s = "" ∧ Service.Mode s = "".
Proof.
  rewrite elem_of_list_to_set, list_elem_of_fmap. by intros (k & -> & _).
Qed.

Lemma current_destination_stripped d (ks : list gipvs.Destination) :
  d ∈ (list_to_set (fromDestination <$> ks) : gset Destination.t) →
  Destination.Name d = "" ∧ Destination.ServiceId d = "".
Proof.
  rewrite elem_of_list_to_set, list_elem_of_fmap. by intros (k & -> & _).
Qed.

Section copies.
Context (o : Oracle).

Lemma post_forEach_Forall {A} (P : Event → Prop)
    (body : A → Prog (option error)) l w :
  (∀ x w1, x ∈ l → post o (body x) w1 (λ _ _ tr, Forall P tr)) →
  post o (forEach l body) w (λ _ _ tr, Forall P tr).
Proof.
  intros Hb.
  apply (post_forEach o _ _ _ (λ _ _ tr, Forall P tr)).
  - constructor.
  - intros done x rest w1 tr1 Hl H1.
    eapply post_mono; [apply Hb; rewrite Hl; set_solver |].
    intros [err |] w2 tr2 _ _ _ H2; by apply Forall_app.
  - done.
Qed.

(** A loop of mutations hands out nothing. *)
Lemma post_mutations_copies {A} (f : A → Mutation) l w :
  post o (forEach l (λ x, call (KMutate (f x)))) w
    (λ _ _ tr, Forall (λ ev, hands_out_copies ev.1) tr).
Proof.
  eapply post_mono.
  - apply (post_only_calls o hands_out_copies).
    repeat only_calls_step. by repeat split.
  - by intros r w' tr _ _ _ [_ H].
Qed.

Ltac copies_tac :=
  rewrite ?app_nil_r; cbn [app];
  repeat first
    [ assumption
    | apply Forall_nil
    | apply Forall_cons; split; [first [exact I | assumption] |]
    | apply Forall_app; split ].

Lemma post_syncDestinations_copies svc w :
  post o (syncDestinations svc) w
    (λ _ _ tr, Forall (λ ev, hands_out_copies ev.1) tr).
Proof.
  unfold syncDestinations. do 4 post_step; [post_step; by copies_tac |].
  unfold mapset.Difference.
  set (Sd := normalizedDestinations _). set (Cd := normalizedDestinations _).
  assert (HA : hands_out_copies (IterDestinations (Sd ∖ Cd))).
  { intros d [Hd _]%elem_of_difference. by eapply state_destination_stripped. }
  assert (HR : hands_out_copies (IterDestinations (Cd ∖ Sd))).
  { intros d [Hd _]%elem_of_difference. by eapply state_destination_stripped. }
  do 3 post_step.
  eapply post_mono;
    [apply (post_mutations_copies (λ d, AddDestination _ _)) |].
  intros [err |] w1 tr1 _ _ _ H1; [post_step; by copies_tac |].
  do 3 post_step.
  eapply post_mono;
    [apply (post_mutations_copies (λ d, DeleteDestination _ _)) |].
  intros [err |] w2 tr2 _ _ _ H2; post_step; by copies_tac.
Qed.
End copies.

Section copies2.
Context (o : Oracle).

Ltac copies_tac :=
  rewrite ?app_nil_r; cbn [app];
  repeat first
    [ assumption
    | apply Forall_nil
    | apply Forall_cons; split; [first [exact I | assumption] |]
    | apply Forall_app; split ].

Lemma post_syncLocked_copies w :
  post o syncLocked w (λ _ _ tr, Forall (λ ev, hands_out_copies ev.1) tr).
Proof.
  unfold syncLocked. do 4 post_step; [post_step; by copies_tac |].
  unfold mapset.Difference.
  set (S := normalizedServices (state.GetServices _)).
  set (C := normalizedServices (liveServices _)).
  assert (HA : hands_out_copies (IterServices (S ∖ C))).
  { intros d [Hd _]%elem_of_difference. by eapply state_service_stripped. }
  assert (HR : hands_out_copies (IterServices (C ∖ S))).
  { intros d [Hd _]%elem_of_difference. by eapply state_service_stripped. }
  do 3 post_step.
  eapply post_mono.
  { apply (post_only_calls o hands_out_copies).
    repeat only_calls_step; by repeat split. }
  intros [err |] w1 tr1 _ _ _ [_ H1]; [post_step; by copies_tac |].
  do 3 post_step.
  eapply post_mono;
    [apply (post_mutations_copies o (λ s, DeleteService _)) |].
  intros [err |] w2 tr2 _ _ _ H2; [post_step; by copies_tac |].
  do 2 post_step.
  eapply post_mono.
  { apply post_forEach_Forall. intros s w3 _.
    apply post_syncDestinations_copies. }
  intros r w3 tr3 _ _ _ H3. by copies_tac.
Qed.

Ltac notadd_tac :=
  apply afq_none; rewrite ?app_nil_r; cbn [app];
  repeat (apply Forall_cons; split; [exact (λ H, H) |]); by apply Forall_nil.

(** A service is added right after the provider has been asked for its
    destinations, and the service asked about is the normalized copy that
    the difference holds. *)
Lemma post_syncLocked_afq w :
  post o syncLocked w (λ _ _ tr,
    adds_follow_queries (servicesToAdd (desired w) (kernel w)) tr).
Proof.
  unfold syncLocked. do 4 post_step.
  { post_step. notadd_tac. }
  unfold mapset.Difference. cbn [kernel desired record_call].
  fold (servicesToAdd (desired w) (kernel w)).
  set (X := servicesToAdd (desired w) (kernel w)).
  do 3 post_step.
  eapply post_mono.
  { apply (post_forEach o _ _ _
      (λ _ _ tr, adds_follow_queries X tr)
      (λ _ _ tr, adds_follow_queries X tr)).
    - by apply afq_none.
    - intros done x rest w1 tr1 Hl0 H1.
      assert (Hx : x ∈ X).
      { apply elem_of_elements. rewrite <- Hl, Hl0. set_solver. }
      unfold addServiceAndDestinations. do 4 post_step.
      + post_step. cbv beta iota. cbn [app].
        apply afq_app; [done | by apply afq_block].
      + eapply post_mono.
        { apply (post_only_calls o not_add_service).
          repeat only_calls_step; by repeat split. }
        intros r w2 tr2 _ _ _ [_ H2%not_add_service_events]. cbn [app].
        destruct r; (apply afq_app; [done | by apply afq_block]).
    - done. }
  intros [err |] w1 tr1 _ _ _ H1.
  { post_step. rewrite app_nil_r. cbn [app].
    apply (afq_app X [_; _; _]); [| done].
    notadd_tac. }
  eapply post_mono.
  { apply (post_only_calls o not_add_service).
    repeat only_calls_step; by repeat split. }
  intros r w2 tr2 _ _ _ [_ H2%not_add_service_events]. cbn [app].
  apply (afq_app X [_; _; _]); [notadd_tac |].
  apply afq_app; [done | by apply afq_none].
Qed.
End copies2.

Lemma Sync_post_copies o w :
  mutex w = false →
  post o Sync w (λ _ _ tr,
    Forall (λ ev, hands_out_copies ev.1) tr ∧
    adds_follow_queries (servicesToAdd (desired w) (kernel w)) tr).
Proof.
  intros Hm. eapply post_Sync; [done | |].
  - apply post_conj; [apply post_syncLocked_copies | apply post_syncLocked_afq].
  - intros r w1 tr [Hc Ha] _ _ _. cbn [kernel desired record_call set_mutex] in Ha.
    split.
    + apply Forall_cons. split; [exact I |]. apply Forall_app. split; [done |].
      apply Forall_cons. split; [exact I |]. by apply Forall_nil.
    + apply (afq_app _ [_]).
      { apply afq_none. apply Forall_cons. split; [exact (λ H, H) |].
        by apply Forall_nil. }
      apply afq_app; [done |].
      apply afq_none. apply Forall_cons. split; [exact (λ H, H) |].
      by apply Forall_nil.
Qed.

(** ** Every service to add has its turn *)

Lemma qa_app_r s tr tr' :
  queried_and_added s tr → queried_and_added s (tr ++ tr').
Proof.
  intros (pre & r & post & ->). exists pre, r, (post ++ tr').
  by rewrite <- app_assoc.
Qed.

Lemma qa_app_l s tr0 tr :
  queried_and_added s tr → queried_and_added s (tr0 ++ tr).
Proof.
  intros (pre & r & post & ->). exists (tr0 ++ pre), r, post.
  by rewrite <- app_assoc.
Qed.

Section turns.
Context (o : Oracle).

(** A loop of mutations that returns an error has ended on the call that
    failed. *)
Lemma post_mutations_failed {A} (f : A → Mutation) l w :
  post o (forEach l (λ x, call (KMutate (f x)))) w (λ r _ tr,
    ∀ err, r = Some err → ∃ pre x, tr = pre ++ [(KMutate (f x), Some err)]).
Proof.
  apply (post_forEach o _ _ _ (λ _ _ _, True)).
  - done.
  - intros done x rest w1 tr1 _ _. post_step; [| done].
    intros e [= <-]. by exists tr1, x.
  - by intros w' tr _ err [=].
Qed.

Lemma post_syncLocked_turns w :
  post o syncLocked w (λ r _ tr,
    ∃ la done,
      turns_taken (servicesToAdd (desired w) (kernel w)) r tr la done).
Proof.
  unfold syncLocked. do 4 post_step.
  { post_step. cbn [app].
    exists (elements (servicesToAdd (desired w) (kernel w))), [].
    split; [done |]. split; [apply prefix_nil |].
    split; [by intros s ?%elem_of_nil |]. right.
    by exists [(StateGetServices, None)], KGetServices, err. }
  unfold mapset.Difference. cbn [kernel desired record_call].
  fold (servicesToAdd (desired w) (kernel w)).
  set (X := servicesToAdd (desired w) (kernel w)).
  do 3 post_step.
  eapply post_mono.
  { apply (post_forEach o _ _ _
      (λ done _ tr, ∀ s, s ∈ done → queried_and_added s tr)
      (λ r _ tr,
         ∃ done, done `prefix_of` l ∧
           (∀ s, s ∈ done → queried_and_added s tr) ∧
           match r with
           | None => done = l
           | Some err =>
               ∃ pre c, tr = pre ++ [(c, Some err)] ∧ before_removals c
           end)).
    - by intros s ?%elem_of_nil.
    - intros done x rest w1 tr1 Hl0 H1.
      assert (Hpre : (done ++ [x]) `prefix_of` l).
      { exists rest. by rewrite Hl0, <- app_assoc. }
      unfold addServiceAndDestinations. do 4 post_step.
      + post_step. cbv beta iota. cbn [app].
        exists (done ++ [x]). split; [exact Hpre |]. split.
        * intros s [Hs | ->%list_elem_of_singleton]%elem_of_app.
          -- by apply qa_app_r, H1.
          -- by exists tr1, (Some err), [].
        * exists (tr1 ++ [(StateGetDestinations x, None)]),
            (KMutate (AddService (ToIpvsService x))).
          by rewrite <- app_assoc.
      + eapply post_mono;
          [apply (post_mutations_failed (λ d, AddDestination _ _)) |].
        intros r w2 tr2 _ _ _ H2. cbn [app].
        assert (Hqa : ∀ s, s ∈ done ++ [x] →
                  queried_and_added s
                    (tr1 ++ (StateGetDestinations x, None)
                         :: (KMutate (AddService (ToIpvsService x)), None)
                         :: tr2)).
        { intros s [Hs | ->%list_elem_of_singleton]%elem_of_app.
          - by apply qa_app_r, H1.
          - by exists tr1, None, tr2. }
        destruct r as [err |]; [| exact Hqa].
        exists (done ++ [x]). split; [exact Hpre |]. split; [exact Hqa |].
        destruct (H2 err eq_refl) as (pre & d & ->).
        exists (tr1 ++ (StateGetDestinations x, None)
                    :: (KMutate (AddService (ToIpvsService x)), None) :: pre),
          (KMutate (AddDestination (ToIpvsService x) (ToIpvsDestination d))).
        by rewrite <- app_assoc.
    - intros w' tr HI. by exists l. }
  intros [err |] w1 tr1 _ _ _ (done & Hpre & Hqa & Hend).
  { post_step. rewrite app_nil_r. cbn [app]. exists l, done.
    split; [done |]. split; [done |]. split.
    - intros s Hs. apply (qa_app_l s [_; _; _]). by apply Hqa.
    - right. destruct Hend as (pre & c & -> & Hc).
      rewrite !app_comm_cons. eexists _, c, err.
      split; [done |]. split; [reflexivity | done]. }
  subst done.
  eapply post_mono.
  { apply (post_only_calls o (λ _, True)).
    repeat only_calls_step; by repeat split. }
  intros r w2 tr2 _ _ _ _. cbn [app]. exists l, l.
  split; [done |]. split; [done |]. split; [| by left].
  intros s Hs. apply (qa_app_l s [_; _; _]). by apply qa_app_r, Hqa.
Qed.
End turns.

Lemma Sync_post_turns o w :
  mutex w = false →
  post o Sync w (λ r _ tr,
    ∃ la done,
      la ≡ₚ elements (servicesToAdd (desired w) (kernel w)) ∧
      done `prefix_of` la ∧
      (∀ s, s ∈ done → queried_and_added s tr) ∧
      (done = la ∨
       ∃ pre c err, r = Some err ∧
                    tr = pre ++ [(c, Some err); (Unlock, None)] ∧
                    before_removals c)).
Proof.
  intros Hm. eapply post_Sync; [done | apply post_syncLocked_turns |].
  intros r w1 tr (la & done & Hla & Hpre & Hqa & Hend) _ _ _.
  cbn [kernel desired record_call set_mutex] in Hla.
  exists la, done. split; [done |]. split; [done |]. split.
  - intros s Hs. apply (qa_app_l s [_]). by apply qa_app_r, Hqa.
  - destruct Hend as [-> | (pre & c & err & -> & -> & Hc)]; [by left |].
    right. exists ((Lock, None) :: pre), c, err. split; [done |].
    split; [| done]. cbn [app]. by rewrite <- app_assoc.
Qed.

(** C10, as the code has it. Every set that a pass hands to one of its
    loops (the two results of the difference, for the services and for the
    destinations of each service) holds normalized copies: services without
    name and mode, destinations without name and owning service. A service
    is added right after the provider has been asked for the destinations of
    a service [s] of the set to add, and it is [s], the normalized copy, that
    is translated and added: the provider is asked about the copy, not about
    the entity it holds. The services to add have their turn one after the
    other, in the order [la] of the loop: each is asked about and then added.
    All of them have their turn, unless the pass ended before on the failure
    of the listing of the services or of an addition; then those up to the
    failure, [done], had it. *)
Theorem Sync_hands_out_copies o w :
  mutex w = false →
  ∃ r w' tr,
    run o Sync w = Some (r, w') ∧ log w' = log w ++ tr ∧
    (∀ X r0, (IterServices X, r0) ∈ tr →
       ∀ s, s ∈ X → Service.Name s = "" ∧ Service.Mode s = "") ∧
    (∀ X r0, (IterDestinations X, r0) ∈ tr →
       ∀ d, d ∈ X → Destination.Name d = "" ∧ Destination.ServiceId d = "") ∧
    (∀ pre k r0 post,
       tr = pre ++ (KMutate (AddService k), r0) :: post →
       ∃ pre' s,
         pre = pre' ++ [(StateGetDestinations s, None)] ∧
         k = ToIpvsService s ∧
         s ∈ servicesToAdd (desired w) (kernel w) ∧
         Service.Name s = "" ∧ Service.Mode s = "") ∧
    ∃ la done,
      la ≡ₚ elements (servicesToAdd (desired w) (kernel w)) ∧
      done `prefix_of` la ∧
      (∀ s, s ∈ done →
         Service.Name s = "" ∧ Service.Mode s = "" ∧
         ∃ pre r0 post,
           tr = pre ++ (StateGetDestinations s, None)
                    :: (KMutate (AddService (ToIpvsService s)), r0) :: post) ∧
      (done = la ∨
       ∃ pre c err,
         r = Some err ∧ tr = pre ++ [(c, Some err); (Unlock, None)] ∧
         before_removals c).
Proof.
  intros Hm.
  destruct (post_conj o _ _ _ _ (Sync_post_copies o w Hm)
              (Sync_post_turns o w Hm))
    as (r & w' & tr & Hrun & Hlog & _ & _ & [Hc Ha] & Ht).
  exists r, w', tr. split; [done |]. split; [done |].
  split; [| split; [| split]].
  - intros X r0 Hin.
    apply (proj1 (Forall_forall _ _) Hc) in Hin. exact Hin.
  - intros X r0 Hin.
    apply (proj1 (Forall_forall _ _) Hc) in Hin. exact Hin.
  - intros pre k r0 post Heq.
    destruct (Ha pre k r0 post Heq) as (pre' & s & -> & -> & Hs).
    exists pre', s. split; [done |]. split; [done |]. split; [done |].
    unfold servicesToAdd in Hs. apply elem_of_difference in Hs as [Hs _].
    by eapply state_service_stripped.
  - destruct Ht as (la & done & Hla & Hpre & Hqa & Hend).
    exists la, done. split; [done |]. split; [done |]. split; [| done].
    intros s Hs.
    assert (Hin : s ∈ servicesToAdd (desired w) (kernel w)).
    { apply elem_of_elements. rewrite <- Hla.
      destruct Hpre as [rest ->]. apply elem_of_app. by left. }
    unfold servicesToAdd in Hin. apply elem_of_difference in Hin as [Hin _].
    destruct (state_service_stripped _ _ Hin) as [Hn Hmo].
    split; [done |]. split; [done |]. by apply Hqa.
Qed.

Lemma Sync_hands_out_copies_witness :
  mutex world_web = false ∧
  ∃ r w' tr,
    run calm Sync world_web = Some (r, w') ∧
    log w' = log world_web ++ tr ∧
    (∀ pre k r0 post,
       tr = pre ++ (KMutate (AddService k), r0) :: post →
       ∃ pre' s,
         pre = pre' ++ [(StateGetDestinations s, None)] ∧
         k = ToIpvsService s ∧
         s ∈ servicesToAdd (desired world_web) (kernel world_web) ∧
         Service.Name s = "" ∧ Service.Mode s = "") ∧
    ∃ la done,
      la ≡ₚ elements (servicesToAdd (desired world_web) (kernel world_web)) ∧
      done `prefix_of` la ∧
      (∀ s, s ∈ done →
         Service.Name s = "" ∧ Service.Mode s = "" ∧
         ∃ pre r0 post,
           tr = pre ++ (StateGetDestinations s, None)
                    :: (KMutate (AddService (ToIpvsService s)), r0) :: post) ∧
      (done = la ∨
       ∃ pre c err,
         r = Some err ∧ tr = pre ++ [(c, Some err); (Unlock, None)] ∧
         before_removals c).
Proof.
  split; [reflexivity |].
  destruct (Sync_hands_out_copies calm world_web eq_refl)
    as (r & w' & tr & Hrun & Hlog & _ & _ & Ha & Ht).
  exists r, w', tr. split; [exact Hrun |]. split; [exact Hlog |].
  split; [exact Ha | exact Ht].
Defined.

(** C10, as it was stated, fails: not every service to add gets its call.
    Here two services are to be added and the first addition fails, that of
    [svc_dns]; the pass ends there, and the copy of [svc_web] is neither
    asked about nor added. *)
Lemma addition_cut_short :
  ∃ r w',
    run (failing_at 5 "EIO") Sync world_pair = Some (r, w') ∧
    normalizeService svc_web
      ∈ servicesToAdd (desired world_pair) (kernel world_pair) ∧
    (∀ r0, (StateGetDestinations (normalizeService svc_web), r0) ∉ log w') ∧
    (∀ r0, (KMutate (AddService (ToIpvsService (normalizeService svc_web))),
            r0) ∉ log w').
Proof.
  assert (Hr : (λ rw : option error * World,
                  (bool_decide
                     (StateGetDestinations (normalizeService svc_web)
                        ∈ fst <$> log rw.2),
                   bool_decide
                     (KMutate
                        (AddService
                           (ToIpvsService (normalizeService svc_web)))
                        ∈ fst <$> log rw.2)))
               <$> run (failing_at 5 "EIO") Sync world_pair
               = Some (false, false))
    by (vm_compute; reflexivity).
  apply fmap_Some in Hr as ([r w'] & Hrun & Hp).
  apply pair_equal_spec in Hp as [Hq Ha]. cbn [fst snd] in Hq, Ha.
  symmetry in Hq, Ha.
  apply bool_decide_eq_false in Hq, Ha.
  exists r, w'. split; [exact Hrun |]. split; [| split].
  - unfold servicesToAdd. apply elem_of_difference. split.
    + apply elem_of_normalizedServices. exists svc_web.
      split; [apply list_elem_of_here | reflexivity].
    + intros (k & Hk & _)%elem_of_live_services.
      by apply elem_of_dom in Hk as [ds Hds].
  - intros r0 Hin. apply Hq, list_elem_of_fmap.
    eexists. split; [| exact Hin]. reflexivity.
  - intros r0 Hin. apply Ha, list_elem_of_fmap.
    eexists. split; [| exact Hin]. reflexivity.
Qed.

(** In the witness the provider is asked for the destinations of the copy,
    which has no name; it finds destinations by the name of the service and
    so finds none for it. *)
Example Sync_queries_the_copy :
  (λ rw, bool_decide
           ((StateGetDestinations (normalizeService svc_web), None)
              ∈ log rw.2)) <$> run calm Sync world_web = Some true ∧
  normalizeService svc_web ≠ svc_web ∧
  state.GetDestinations desired_web (normalizeService svc_web) = [] ∧
  state.GetDestinations desired_web svc_web = [dst_a].
Proof.
  split; [vm_compute; reflexivity |]. split; [intros [=] |].
  split; reflexivity.
Qed.

(** * Reading the desired state *)

Lemma provider_calls_app tr1 tr2 :
  provider_calls (tr1 ++ tr2) = provider_calls tr1 ++ provider_calls tr2.
Proof. unfold provider_calls. by rewrite fmap_app, filter_app. Qed.

Lemma provider_calls_none tr :
  Forall (λ ev : Event, ¬ is_provider_call ev.1) tr → provider_calls tr = [].
Proof.
  unfold provider_calls. induction 1 as [| [c r] tr Hc _ IH]; [done |].
  rewrite fmap_cons, filter_cons_False; done.
Qed.

Lemma provider_calls_cons c r tr :
  provider_calls ((c, r) :: tr)
  = if is_provider_call c then c :: provider_calls tr else provider_calls tr.
Proof.
  unfold provider_calls. rewrite fmap_cons. simpl.
  destruct (is_provider_call c) eqn:Hc.
  - rewrite filter_cons_True; [done | rewrite Hc; exact I].
  - rewrite filter_cons_False; [done | rewrite Hc; exact (λ H, H)].
Qed.

Section queries.
Context (o : Oracle).

(** A loop whose body asks for the destinations of its element and puts no
    other query: the queries are those for the elements dealt with. *)
Lemma post_forEach_queries (body : Service.t → Prog (option error)) l w :
  (∀ x w1, post o (body x) w1
     (λ _ _ tr, provider_calls tr = [StateGetDestinations x])) →
  post o (forEach l body) w (λ r _ tr,
    ∃ l1 l2, l = l1 ++ l2 ∧
             provider_calls tr = StateGetDestinations <$> l1 ∧
             (r = None → l2 = [])).
Proof.
  intros Hb.
  apply (post_forEach o _ _ _
    (λ done _ tr, provider_calls tr = StateGetDestinations <$> done)).
  - done.
  - intros done x rest w1 tr1 Hl H1.
    eapply post_mono; [apply Hb |].
    intros r w2 tr2 _ _ _ H2.
    assert (Hq : provider_calls (tr1 ++ tr2)
                 = StateGetDestinations <$> (done ++ [x])).
    { by rewrite provider_calls_app, H1, H2, fmap_app. }
    destruct r as [err |]; [| done].
    exists (done ++ [x]), rest. rewrite <- app_assoc. by repeat split.
  - intros w' tr H. exists l, []. rewrite app_nil_r. by repeat split.
Qed.

Lemma post_no_queries {A} (p : Prog A) w :
  only_calls (λ c, not_mutex c ∧ ¬ is_provider_call c) p →
  post o p w (λ _ _ tr, provider_calls tr = []).
Proof.
  intros Hp. eapply post_mono; [apply (post_only_calls o _ _ _ Hp) |].
  intros a w' tr _ _ _ [_ H]. by apply provider_calls_none.
Qed.

Lemma post_add_body_queries x w :
  post o (dsts ← call (StateGetDestinations x);
          addServiceAndDestinations x dsts) w
    (λ _ _ tr, provider_calls tr = [StateGetDestinations x]).
Proof.
  do 2 post_step.
  eapply post_mono.
  { apply post_no_queries. repeat only_calls_step;
      (split; [by split | exact (λ H, H)]). }
  intros r w' tr _ _ _ H. cbn [app]. by rewrite provider_calls_cons, H.
Qed.

Lemma post_syncDestinations_queries x w :
  post o (syncDestinations x) w
    (λ _ _ tr, provider_calls tr = [StateGetDestinations x]).
Proof.
  unfold syncDestinations, getStateDestinationsSet. do 4 post_step.
  eapply post_mono.
  { apply post_no_queries. repeat only_calls_step;
      (split; [by split | exact (λ H, H)]). }
  intros r w' tr _ _ _ H.
  cbn [app]. by rewrite provider_calls_cons, H.
Qed.
End queries.

Lemma provider_calls_nil : provider_calls [] = [].
Proof. done. Qed.

Ltac queries_tac :=
  rewrite ?app_nil_r; cbn [app];
  repeat first [rewrite provider_calls_cons | rewrite provider_calls_app];
  rewrite ?provider_calls_nil; cbn [is_provider_call].

Section queries2.
Context (o : Oracle).

Lemma post_syncLocked_queries w :
  post o syncLocked w (λ r _ tr,
    ∃ la, la ≡ₚ elements (servicesToAdd (desired w) (kernel w)) ∧
          provider_calls tr
            `prefix_of` pass_queries la (state.GetServices (desired w)) ∧
          (r = None →
           provider_calls tr
           = pass_queries la (state.GetServices (desired w)))).
Proof.
  unfold syncLocked. do 4 post_step.
  { post_step. exists (elements (servicesToAdd (desired w) (kernel w))).
    split; [done |]. queries_tac. split; [| done].
    unfold pass_queries. apply prefix_cons, prefix_nil. }
  unfold mapset.Difference. cbn [kernel desired record_call].
  fold (servicesToAdd (desired w) (kernel w)).
  do 3 post_step.
  eapply post_mono;
    [apply post_forEach_queries; intros; apply post_add_body_queries |].
  intros r1 w1 tr1 _ Hd1 _ (l1 & l2 & Hl12 & Hq1 & Hnone1).
  cbn [desired record_call] in Hd1.
  destruct r1 as [err |].
  { post_step. exists l. split; [done |]. queries_tac. rewrite Hq1.
    split; [| done]. unfold pass_queries. rewrite Hl12, fmap_app, <- app_assoc.
    by apply prefix_cons, prefix_app_r. }
  rewrite (Hnone1 eq_refl), app_nil_r in Hl12. subst l1.
  do 3 post_step.
  eapply post_mono.
  { apply post_no_queries.
    repeat only_calls_step; (split; [by split | exact (λ H, H)]). }
  intros r2 w2 tr2 _ Hd2 _ Hq2. cbn [desired record_call] in Hd2.
  destruct r2 as [err |].
  { post_step. exists l. split; [done |]. queries_tac. rewrite Hq1, Hq2.
    split; [| done]. unfold pass_queries. rewrite app_nil_r.
    by apply prefix_cons, prefix_app_r. }
  do 2 post_step. cbn [desired record_call]. rewrite Hd2, Hd1.
  eapply post_mono;
    [apply post_forEach_queries; intros; apply post_syncDestinations_queries |].
  intros r3 w3 tr3 _ _ _ (s1 & s2 & Hs12 & Hq3 & Hnone3).
  exists l. split; [done |]. queries_tac. rewrite Hq1, Hq2, Hq3. split.
  - unfold pass_queries. rewrite Hs12, fmap_app.
    by apply prefix_cons, prefix_app, prefix_cons, prefix_app_r.
  - intros Hr. rewrite (Hnone3 Hr), app_nil_r in Hs12. by rewrite Hs12.
Qed.
End queries2.




(** * The destination pass *)

Lemma reconciled_extend D t0 s tr tr' :
  reconciled D t0 s tr → reconciled D t0 s (tr ++ tr').
Proof.
  intros (pre & post & la & lr & -> & Ha & Hr).
  exists pre, (post ++ tr'), la, lr. by rewrite <- !app_assoc.
Qed.

Lemma reconciled_shift D t0 s tr0 tr :
  reconciled D (replay tr0 t0) s tr → reconciled D t0 s (tr0 ++ tr).
Proof.
  intros (pre & post & la & lr & -> & Ha & Hr).
  exists (tr0 ++ pre), post, la, lr.
  rewrite replay_app, <- !app_assoc. by repeat split.
Qed.

Section destination_pass.
Context (o : Oracle).

(** A loop of mutations that meets no error has made them all, in order. *)
Lemma post_mutations_trace {A} (f : A → Mutation) l w :
  post o (forEach l (λ x, call (KMutate (f x)))) w (λ r _ tr,
    r = None → tr = (λ x, (KMutate (f x), None)) <$> l).
Proof.
  apply (post_forEach o _ _ _
    (λ done _ tr, tr = (λ x, (KMutate (f x), None)) <$> done)).
  - done.
  - intros done x rest w1 tr1 _ ->. post_step; [done |].
    by rewrite fmap_app.
  - done.
Qed.

Lemma post_syncDestinations_block svc w :
  post o (syncDestinations svc) w (λ r _ tr,
    r = None →
    ∃ la lr,
      tr = reconciliation (desired w) (kernel w) svc la lr ∧
      la ≡ₚ elements (destinationsToAdd (desired w) (kernel w) svc) ∧
      lr ≡ₚ elements (destinationsToRemove (desired w) (kernel w) svc)).
Proof.
  unfold syncDestinations. do 4 post_step; [by post_step |].
  unfold mapset.Difference. cbn [kernel desired record_call].
  fold (destinationsToAdd (desired w) (kernel w) svc).
  fold (destinationsToRemove (desired w) (kernel w) svc).
  do 3 post_step.
  eapply post_mono;
    [apply (post_mutations_trace (λ d, AddDestination _ _)) |].
  intros [err |] w1 tr1 _ _ _ H1; [by post_step |].
  do 3 post_step.
  eapply post_mono;
    [apply (post_mutations_trace (λ d, DeleteDestination _ _)) |].
  intros [err |] w2 tr2 _ _ _ H2; post_step; [done |]. intros _.
  exists l, l0. rewrite (H1 eq_refl), (H2 eq_refl), app_nil_r.
  by repeat split.
Qed.

(** The loop over the desired services: when it meets no error, every one
    of them has been reconciled. *)
Lemma post_sync_all_reconciled (svcs : list Service.t) w :
  post o (forEach svcs syncDestinations) w (λ r _ tr,
    r = None → ∀ s, s ∈ svcs → reconciled (desired w) (kernel w) s tr).
Proof.
  apply (post_forEach o _ _ _
    (λ done w1 tr1,
       desired w1 = desired w ∧ kernel w1 = replay tr1 (kernel w) ∧
       ∀ s, s ∈ done → reconciled (desired w) (kernel w) s tr1)).
  - split; [done |]. split; [done |]. by intros s ?%elem_of_nil.
  - intros done x rest w1 tr1 _ (Hd1 & Hk1 & Hdone).
    eapply post_mono; [apply post_syncDestinations_block |].
    intros [err |] w2 tr2 _ Hd2 Hk2 Hblock; [done |].
    destruct (Hblock eq_refl) as (la & lr & -> & Ha & Hr).
    split; [congruence |]. split; [by rewrite Hk2, Hk1, replay_app |].
    intros s [Hs | ->%list_elem_of_singleton]%elem_of_app.
    + by apply reconciled_extend, Hdone.
    + rewrite Hd1, Hk1 in *. exists tr1, [], la, lr.
      by rewrite app_nil_r.
  - intros w' tr (_ & _ & H) _. exact H.
Qed.
End destination_pass.

Section destination_pass2.
Context (o : Oracle).

Lemma post_any {A} (p : Prog A) w : lockfree p → post o p w (λ _ _ _, True).
Proof.
  intros Hp. eapply post_mono; [by apply post_lockfree | done].
Qed.

Lemma post_syncLocked_reconciles w :
  post o syncLocked w (λ r _ tr,
    r = None →
    ∀ s, s ∈ state.GetServices (desired w) →
         reconciled (desired w) (kernel w) s tr).
Proof.
  unfold syncLocked. do 4 post_step; [by post_step |].
  do 3 post_step.
  eapply post_mono.
  { apply post_any. repeat only_calls_step; by split. }
  intros [err |] w1 tr1 _ Hd1 Hk1 _; [by post_step |].
  do 3 post_step.
  eapply post_mono.
  { apply post_any. repeat only_calls_step; by split. }
  intros [err |] w2 tr2 _ Hd2 Hk2 _; [by post_step |].
  do 2 post_step.
  cbn [kernel desired record_call] in *.
  eapply post_mono; [apply post_sync_all_reconciled |].
  intros r w3 tr3 _ _ _ Hrec Hr s Hs.
  cbn [kernel desired record_call] in Hrec.
  rewrite Hd2, Hd1 in Hrec. specialize (Hrec Hr s Hs).
  rewrite Hk2, Hk1 in Hrec.
  do 7 apply reconciled_shift. exact Hrec.
Qed.
End destination_pass2.

(** C4, as the code has it. In a pass of [Sync] that no error ends, the
    destinations of every desired service are reconciled, whether or not the
    service was among those added or removed before: the pass holds, for
    each of them, the read of the desired destinations, the read of the live
    ones, the additions of the destinations that were missing and the
    removals of those no longer wanted, both differences taken against the
    table as it was when this reconciliation began. *)
Theorem Sync_reconciles_every_service o w :
  mutex w = false →
  ∃ r w' tr,
    run o Sync w = Some (r, w') ∧ log w' = log w ++ tr ∧
    (r = None →
     ∀ s, s ∈ state.GetServices (desired w) →
       ∃ pre post la lr,
         tr = pre
              ++ reconciliation (desired w) (replay pre (kernel w)) s la lr
              ++ post ∧
         la ≡ₚ elements
                 (destinationsToAdd (desired w) (replay pre (kernel w)) s) ∧
         lr ≡ₚ elements
                 (destinationsToRemove (desired w) (replay pre (kernel w)) s)).
Proof.
  intros Hm.
  destruct (post_Sync o w _
              (λ r _ tr, r = None →
                 ∀ s, s ∈ state.GetServices (desired w) →
                      reconciled (desired w) (kernel w) s tr)
              Hm (post_syncLocked_reconciles o _))
    as (r & w' & tr & Hrun & Hlog & _ & _ & HQ).
  - intros r w1 tr Hrec _ _ _ Hr s Hs.
    cbn [desired kernel record_call set_mutex] in Hrec.
    apply (reconciled_shift _ _ _ [(Lock, None)]), reconciled_extend.
    by apply Hrec.
  - exists r, w', tr. split; [done |]. split; [done |]. exact HQ.
Qed.

Lemma Sync_reconciles_every_service_witness :
  mutex world_web = false ∧
  ∃ r w' tr,
    run calm Sync world_web = Some (r, w') ∧
    log w' = log world_web ++ tr ∧
    (r = None →
     ∀ s, s ∈ state.GetServices (desired world_web) →
          reconciled (desired world_web) (kernel world_web) s tr).
Proof.
  split; [reflexivity |].
  exact (Sync_reconciles_every_service calm world_web eq_refl).
Defined.

(** C4, as it was stated, fails: when the listing of the live services
    fails, the pass ends and the destinations of the desired service are
    never looked at. *)
Lemma no_reconciliation_after_failure :
  ∃ w', run (failing_at 2 "EIO") Sync world_web = Some (Some "EIO", w') ∧
        svc_web ∈ state.GetServices (desired world_web) ∧
        Forall (λ ev, ev.1 ≠ StateGetDestinations svc_web ∧
                      ev.1 ≠ KGetService (ToIpvsService svc_web)) (log w').
Proof.
  assert (Hr : (λ rw, (rw.1,
                  bool_decide
                    (Forall (λ ev : Event,
                       ev.1 ≠ StateGetDestinations svc_web ∧
                       ev.1 ≠ KGetService (ToIpvsService svc_web))
                       (log rw.2))))
               <$> run (failing_at 2 "EIO") Sync world_web
               = Some (Some "EIO", true))
    by (vm_compute; reflexivity).
  destruct (run (failing_at 2 "EIO") Sync world_web) as [[r w'] |];
    [| discriminate Hr].
  simpl in Hr. injection Hr as -> Hall%bool_decide_eq_true.
  exists w'. split; [reflexivity |]. split; [left | exact Hall].
Qed.

(** * Several callers at once *)

Lemma critical_bind {A B} (m : Prog A) (f : A → Prog B) :
  lockfree m → (∀ a, critical (f a)) → critical (bind m f).
Proof.
  intros Hm Hf. induction Hm as [a | c k [Hc1 Hc2] _ IH]; simpl; [apply Hf |].
  split; [done |]. intros r. rewrite decide_False by done. apply IH.
Qed.

Lemma entering_Sync : entering Sync.
Proof.
  split; [done |]. intros [].
  apply (critical_bind (Ret ())); [constructor |]. intros _.
  apply critical_bind; [apply lockfree_syncLocked |].
  intros r. split; [done |]. by intros [].
Qed.

Section pool.
Context (o : Oracle).

(** One step of one goroutine keeps the discipline and the invariant. *)
Lemma pool_step h ts w i ts' w' :
  pool_inv h ts w →
  step_thread o i ts w = Some (ts', w') →
  ∃ c r h',
    log w' = log w ++ [(c, r)] ∧
    (∀ rest, lock_discipline h ((i, (c, r)) :: rest)
             = lock_discipline h' rest) ∧
    pool_inv h' ts' w'.
Proof.
  intros [Hm Hts] Hstep. unfold step_thread in Hstep.
  destruct (ts !! i) as [[a | c k] |] eqn:Hi; try discriminate Hstep.
  destruct (handle o c w) as [[r w1] |] eqn:Hh; [| discriminate Hstep].
  injection Hstep as <- <-.
  destruct (Hts i _ Hi) as [Hcrit Hent].
  destruct (handle_frame o c r w w1 Hh) as (e & Hlog & _ & _).
  exists c, e.
  destruct (decide (h = Some i)) as [-> | Hne].
  - destruct (Hcrit eq_refl) as [HnL Hk]. specialize (Hk r).
    destruct (decide (c = Unlock)) as [-> | HnU].
    + exists None. split; [done |]. split.
      { intros rest. simpl. by rewrite bool_decide_true. }
      simpl in Hh. rewrite Hm in Hh. simpl in Hh. injection Hh as <- <-.
      split; [done |]. intros j p Hj. split; [done |]. intros _.
      destruct (decide (j = i)) as [-> | Hji].
      * rewrite list_lookup_insert_eq in Hj by (by eapply lookup_lt_Some).
        injection Hj as <-. by right.
      * rewrite list_lookup_insert_ne in Hj by done.
        apply (Hts j p Hj). congruence.
    + exists (Some i). split; [done |]. split.
      { intros rest. destruct c; simpl; try done;
          by rewrite bool_decide_true. }
      split.
      { by rewrite (handle_mutex o c r w w1). }
      intros j p Hj. destruct (decide (j = i)) as [-> | Hji].
      * rewrite list_lookup_insert_eq in Hj by (by eapply lookup_lt_Some).
        injection Hj as <-. by split.
      * rewrite list_lookup_insert_ne in Hj by done. by apply Hts.
  - destruct (Hent Hne) as [[-> Hk] | []].
    simpl in Hh. destruct (mutex w) eqn:Hmw; [discriminate Hh |].
    injection Hh as <- <-.
    assert (h = None) as ->.
    { destruct h; [| done]. by rewrite bool_decide_true in Hm. }
    exists (Some i). split; [done |]. split; [done |].
    split; [done |]. intros j p Hj.
    destruct (decide (j = i)) as [-> | Hji].
    + rewrite list_lookup_insert_eq in Hj by (by eapply lookup_lt_Some).
      injection Hj as <-. split; [intros _; apply Hk | done].
    + rewrite list_lookup_insert_ne in Hj by done.
      split; [congruence |]. intros _. by apply (Hts j p Hj).
Qed.

Lemma pool_run h sch ts w ts' w' :
  pool_inv h ts w →
  run_schedule o sch ts w = Some (ts', w') →
  ∃ tr, log w' = log w ++ tr ∧ length tr = length sch ∧
        lock_discipline h (zip sch tr) = true.
Proof.
  revert h ts w. induction sch as [| i sch IH]; intros h ts w Hinv Hrun.
  - injection Hrun as <- <-. exists []. by rewrite app_nil_r.
  - simpl in Hrun.
    destruct (step_thread o i ts w) as [[ts1 w1] |] eqn:Hstep;
      [| discriminate Hrun].
    destruct (pool_step _ _ _ _ _ _ Hinv Hstep)
      as (c & r & h' & Hlog1 & Hchk & Hinv1).
    destruct (IH _ _ _ Hinv1 Hrun) as (tr & Hlog & Hlen & Hd).
    exists ((c, r) :: tr). rewrite Hlog, Hlog1, <- app_assoc.
    split; [done |]. split; [simpl; by rewrite Hlen |].
    change (zip (i :: sch) ((c, r) :: tr)) with ((i, (c, r)) :: zip sch tr).
    by rewrite Hchk.
Qed.
End pool.

(** Passes of [Sync] exclude one another. Goroutines that all run [Sync] on
    one [Ipvs] value and one kernel: however their calls are scheduled, the
    mutex is taken only when it is free, every call on the kernel (reads and
    mutations) is made by the goroutine that holds the mutex, and it is the
    holder that releases it. So the kernel calls of two passes never
    interleave. *)
Theorem Sync_passes_serialized o sch ts w ts' w' :
  Forall (λ p, p = Sync) ts →
  mutex w = false →
  run_schedule o sch ts w = Some (ts', w') →
  lock_discipline None (labelled sch w w') = true.
Proof.
  intros Hts Hm Hrun.
  assert (Hinv : pool_inv None ts w).
  { split; [done |]. intros i p Hi.
    assert (p = Sync) as ->.
    { apply list_elem_of_lookup_2 in Hi.
      exact (proj1 (Forall_forall _ _) Hts p Hi). }
    split; [done |]. intros _. left. apply entering_Sync. }
  destruct (pool_run o _ _ _ _ _ _ Hinv Hrun) as (tr & Hlog & _ & Hd).
  unfold labelled. by rewrite Hlog, drop_app_length.
Qed.

Lemma Sync_passes_serialized_witness :
  ∃ ts' w',
    run_schedule calm (replicate 14 0 ++ replicate 11 1) [Sync; Sync]
      world_web = Some (ts', w') ∧
    lock_discipline None
      (labelled (replicate 14 0 ++ replicate 11 1) world_web w') = true.
Proof.
  assert (Hr : match run_schedule calm (replicate 14 0 ++ replicate 11 1)
                       [Sync; Sync] world_web with
               | Some _ => true
               | None => false
               end = true) by (vm_compute; reflexivity).
  destruct (run_schedule calm (replicate 14 0 ++ replicate 11 1)
              [Sync; Sync] world_web) as [[ts' w'] |] eqn:Hrun;
    [| discriminate Hr].
  exists ts', w'. split; [reflexivity |].
  apply (Sync_passes_serialized calm _ [Sync; Sync] world_web ts' w').
  - repeat constructor.
  - reflexivity.
  - exact Hrun.
Defined.

(** C9. The code breaks the claim: [Flush] mutates the kernel table without
    taking the mutex that [Sync] takes on the same [Ipvs] value. Here one
    goroutine is inside a pass, has added the service and holds the mutex,
    when another one flushes the table: a mutation made while the caller
    does not hold the lock, between the kernel calls of the pass. *)
Lemma Flush_inside_a_pass :
  ∃ ts' w',
    run_schedule calm [0; 0; 0; 0; 0; 0; 1] [Sync; Flush] world_web
      = Some (ts', w') ∧
    lock_discipline None (labelled [0; 0; 0; 0; 0; 0; 1] world_web w')
      = false ∧
    mutex w' = true ∧
    fst <$> log w'
    = [Lock; StateGetServices; KGetServices;
       IterServices (servicesToAdd desired_web ∅);
       StateGetDestinations (normalizeService svc_web);
       KMutate (AddService (ToIpvsService svc_web));
       KMutate KFlush] ∧
    kernel w' = ∅.
Proof.
  assert (Hr : (λ tw : list (Prog (option error)) * World,
                  (lock_discipline None
                     (labelled [0; 0; 0; 0; 0; 0; 1] world_web tw.2),
                   mutex tw.2,
                   bool_decide
                     (fst <$> log tw.2
                      = [Lock; StateGetServices; KGetServices;
                         IterServices (servicesToAdd desired_web ∅);
                         StateGetDestinations (normalizeService svc_web);
                         KMutate (AddService (ToIpvsService svc_web));
                         KMutate KFlush]),
                   bool_decide (kernel tw.2 = ∅)))
               <$> run_schedule calm [0; 0; 0; 0; 0; 0; 1] [Sync; Flush]
                     world_web
               = Some (false, true, true, true))
    by (vm_compute; reflexivity).
  destruct (run_schedule calm [0; 0; 0; 0; 0; 0; 1] [Sync; Flush] world_web)
    as [[ts' w'] |]; [| discriminate Hr].
  simpl in Hr.
  injection Hr as Hd Hm Hl%bool_decide_eq_true Hk%bool_decide_eq_true.
  exists ts', w'. split; [reflexivity |]. by repeat split.
Qed.

(** * Further properties of the engine *)

(** ** Bootstrap *)

Lemma run_Flush o w :
  run o Flush w
  = match fault o (length (log w)) with
    | Some err => Some (Some err, record_call (KMutate KFlush) (Some err) w)
    | None => Some (None, record_call (KMutate KFlush) None (set_kernel ∅ w))
    end.
Proof.
  unfold Flush, call. cbn [run handle].
  by destruct (fault o (length (log w))).
Qed.

(** [New] hands out an [Ipvs] value exactly when the three steps succeed;
    then the table is empty, the mutex of the new value is free, and the
    flush is the one call that was made on the kernel. *)
Theorem New_flushes o modprobe init w w' :
  New o modprobe init w = Some (None, w') →
  modprobe = None ∧ init = None ∧
  kernel w' = ∅ ∧ mutex w' = false ∧ desired w' = desired w ∧
  log w' = log w ++ [(KMutate KFlush, None)].
Proof.
  unfold New, loadIpvsModule. destruct modprobe; [discriminate |].
  destruct init; [discriminate |]. rewrite run_Flush.
  cbn [log set_mutex]. destruct (fault o (length (log w))); [discriminate |].
  by intros [= <-].
Qed.

Lemma New_flushes_witness :
  ∃ w', New calm None None world_web = Some (None, w') ∧
        kernel w' = ∅ ∧ mutex w' = false.
Proof.
  eexists. split; [reflexivity |].
  exact (conj (proj1 (proj2 (proj2 (New_flushes calm None None world_web _
                                      eq_refl))))
              (proj1 (proj2 (proj2 (proj2 (New_flushes calm None None
                                              world_web _ eq_refl)))))).
Defined.

(** The errors of [New]. A failure of [modprobe] is returned as it is, a
    failure of the initialisation prefixed with [[ipvs] Initialisation
    failed: ], a failure of the flush prefixed with [[ipvs] Flushing table
    failed: ]. The steps are taken in this order and the first failure ends
    [New]: in every case of failure the table is as it was, and the kernel
    was called only if the failure is that of the flush. [New] always
    returns. *)
Theorem New_errors o modprobe init w :
  ∃ r w',
    New o modprobe init w = Some (r, w') ∧ desired w' = desired w ∧
    (∀ err, r = Some err →
       kernel w' = kernel w ∧
       match modprobe, init with
       | Some e, _ => err = e ∧ log w' = log w
       | None, Some e =>
           err = "[ipvs] Initialisation failed: " +:+ e ∧ log w' = log w
       | None, None =>
           ∃ e, err = "[ipvs] Flushing table failed: " +:+ e ∧
                log w' = log w ++ [(KMutate KFlush, Some e)]
       end).
Proof.
  unfold New, loadIpvsModule. destruct modprobe as [e |].
  { exists (Some e), w. split; [done |]. split; [done |].
    by intros err [= <-]. }
  destruct init as [e |].
  { eexists _, w. split; [done |]. split; [done |]. by intros err [= <-]. }
  rewrite run_Flush. cbn [log set_mutex].
  destruct (fault o (length (log w))) as [e |]; eexists _, _;
    (split; [done |]); (split; [done |]); [| by intros err [=]].
  intros err [= <-]. split; [done |]. by exists e.
Qed.

(** ** The mutex *)

(** [Sync] releases the mutex on every return path, also when it returns an
    error, so the next call of [Sync] on the world it leaves returns as
    well. *)
Theorem Sync_releases_mutex o o' w :
  mutex w = false →
  ∃ r w',
    run o Sync w = Some (r, w') ∧ mutex w' = false ∧
    is_Some (run o' Sync w').
Proof.
  intros Hm.
  destruct (Sync_post_unlocked o w Hm) as (r & w' & tr & Hrun & _ & _ & _ & Hm').
  exists r, w'. split; [done |]. split; [done |]. by apply Sync_returns.
Qed.

Lemma Sync_releases_mutex_witness :
  mutex world_web = false ∧
  ∃ r w',
    run (failing_at 5 "EIO") Sync world_web = Some (r, w') ∧
    mutex w' = false ∧ is_Some (run calm Sync w').
Proof.
  split; [reflexivity |].
  exact (Sync_releases_mutex (failing_at 5 "EIO") calm world_web eq_refl).
Defined.

(** While the mutex is taken [Sync] does not start: the caller waits. *)
Lemma Sync_waits_for_mutex o w : mutex w = true → run o Sync w = None.
Proof. intros Hm. unfold Sync, mbind, prog_bind, call. simpl. by rewrite Hm. Qed.

(** ** An empty desired state *)

(** When the provider holds no service, a pass that returns no error has
    emptied the table, and it has asked the provider for the service list
    twice and for nothing else. *)
Theorem Sync_empties_table o w w' :
  state.GetServices (desired w) = [] →
  run o Sync w = Some (None, w') →
  kernel w' = ∅ ∧
  provider_calls (drop (length (log w)) (log w'))
  = [StateGetServices; StateGetServices].
Proof.
  intros Hempty Hrun.
  assert (Hm : mutex w = false).
  { apply (Sync_needs_mutex o w). by rewrite Hrun. }
  assert (Hu : identity_unique (desired w)).
  { intros s1 s2 Hs1. rewrite Hempty in Hs1. by apply elem_of_nil in Hs1. }
  destruct (post_elim o _ _ _ _ _ (Sync_post_converges o w Hm Hu) Hrun)
    as (tr & Hlog & _ & _ & Hc).
  destruct (Hc eq_refl) as [Hs _]. split.
  - apply dom_empty_inv_L. apply set_eq. intros k. split; [| set_solver].
    intros Hk. exfalso.
    assert (Hin : FromService k ∈ normalizedServices (liveServices (kernel w')))
      by (apply elem_of_live_services; eauto).
    rewrite Hs, Hempty in Hin.
    by apply elem_of_normalizedServices in Hin as (s & ?%elem_of_nil & _).
  - destruct (post_elim o _ _ _ _ _
                (post_Sync o w _
                   (λ r _ tr, r = None →
                      provider_calls tr = [StateGetServices; StateGetServices])
                   Hm (post_syncLocked_queries o _)
                   ltac:(intros r w1 tr1 (la & Hla & _ & Hall) _ _ _ ->;
                         cbn [desired kernel record_call set_mutex] in *;
                         rewrite provider_calls_cons; cbn [is_provider_call];
                         rewrite provider_calls_app, provider_calls_cons;
                         cbn [is_provider_call];
                         change (provider_calls []) with (@nil Call);
                         rewrite app_nil_r, (Hall eq_refl), Hempty;
                         unfold servicesToAdd, normalizedServices in Hla;
                         rewrite Hempty in Hla; cbn [fmap list_fmap] in Hla;
                         rewrite list_to_set_nil, difference_disjoint_L in Hla
                           by set_solver;
                         apply perm_elements_empty in Hla as ->; done))
                Hrun) as (tr' & Hlog' & _ & _ & Hq).
    rewrite Hlog', drop_app_length. by apply Hq.
Qed.

Lemma Sync_empties_table_witness :
  ∃ w', run calm Sync world_stale = Some (None, w') ∧ kernel w' = ∅.
Proof.
  assert (Hr : fst <$> run calm Sync world_stale = Some None)
    by (vm_compute; reflexivity).
  destruct (run calm Sync world_stale) as [[r w'] |] eqn:Hrun;
    [| discriminate Hr].
  simpl in Hr. injection Hr as ->. exists w'. split; [reflexivity |].
  exact (proj1 (Sync_empties_table calm world_stale w' eq_refl Hrun)).
Defined.

(** ** Which services a pass adds and removes *)

Lemma add_justified D (t0 : Table) x :
  x ∈ servicesToAdd D t0 →
  justified D t0 (KMutate (AddService (ToIpvsService x))).
Proof.
  unfold servicesToAdd. intros [HS HC]%elem_of_difference. split.
  - intros Hk. apply HC, elem_of_live_services.
    exists (ToIpvsService x). split; [done |].
    rewrite FromService_ToIpvsService. symmetry.
    by eapply normalizedServices_normal.
  - apply elem_of_normalizedServices in HS as (s & Hs & ->). by exists s.
Qed.

Lemma remove_justified D (t0 : Table) x :
  x ∈ servicesToRemove D t0 →
  justified D t0 (KMutate (DeleteService (ToIpvsService x))).
Proof.
  unfold servicesToRemove. intros [HC HS]%elem_of_difference.
  apply elem_of_live_services in HC as (k & Hk & ->).
  rewrite ToIpvsService_FromService. split; [done |].
  intros s Hs <-. apply HS, elem_of_normalizedServices.
  exists s. by rewrite FromService_ToIpvsService.
Qed.

Section justified.
Context (o : Oracle).

Lemma post_syncLocked_justified w :
  post o syncLocked w (λ _ _ tr,
    Forall (λ ev, justified (desired w) (kernel w) ev.1) tr).
Proof.
  unfold syncLocked. do 4 post_step.
  { post_step. cbn [app]. repeat (apply Forall_cons; split; [exact I |]).
    by apply Forall_nil. }
  unfold mapset.Difference. cbn [kernel desired record_call].
  fold (servicesToAdd (desired w) (kernel w)).
  fold (servicesToRemove (desired w) (kernel w)).
  set (P := λ ev : Event, justified (desired w) (kernel w) ev.1).
  do 3 post_step.
  eapply post_mono.
  { apply (post_forEach_Forall o P). intros x w1 Hx.
    assert (Hj : justified (desired w) (kernel w)
                   (KMutate (AddService (ToIpvsService x)))).
    { apply add_justified, elem_of_elements. by rewrite <- Hl. }
    unfold addServiceAndDestinations. do 4 post_step.
    - post_step. cbn [app]. apply Forall_cons. split; [exact I |].
      apply Forall_cons. split; [exact Hj |]. by apply Forall_nil.
    - eapply post_mono.
      { apply (post_only_calls o (justified (desired w) (kernel w))).
        repeat only_calls_step. by repeat split. }
      intros r w2 tr2 _ _ _ [_ H2]. cbn [app].
      apply Forall_cons. split; [exact I |].
      apply Forall_cons. by split. }
  intros [err |] w1 tr1 _ _ _ H1.
  { post_step. rewrite app_nil_r. cbn [app].
    repeat (apply Forall_cons; split; [exact I |]). exact H1. }
  do 3 post_step.
  eapply post_mono.
  { apply (post_forEach_Forall o P). intros x w2 Hx.
    assert (Hj : justified (desired w) (kernel w)
                   (KMutate (DeleteService (ToIpvsService x)))).
    { apply remove_justified, elem_of_elements. by rewrite <- Hl0. }
    post_step; apply Forall_cons; (split; [exact Hj | by apply Forall_nil]). }
  intros [err |] w2 tr2 _ _ _ H2.
  { post_step. rewrite app_nil_r. cbn [app].
    repeat (apply Forall_cons; split; [exact I |]).
    apply Forall_app. split; [exact H1 |].
    apply Forall_cons. by split. }
  do 2 post_step.
  eapply post_mono.
  { apply (post_only_calls o (justified (desired w) (kernel w))).
    repeat only_calls_step; by repeat split. }
  intros r w3 tr3 _ _ _ [_ H3]. cbn [app].
  repeat (apply Forall_cons; split; [exact I |]).
  apply Forall_app. split; [exact H1 |].
  apply Forall_cons. split; [exact I |].
  apply Forall_app. split; [exact H2 |].
  apply Forall_cons. by split.
Qed.
End justified.

(** A pass adds a service only when it is desired and was not live when the
    pass began, removes a service only when it was live then and is not
    desired, and never flushes the table. This holds of every call of the
    pass, also of one that fails and of those made before a failure. *)
Theorem Sync_changes_what_differs o w :
  mutex w = false →
  ∃ r w' tr,
    run o Sync w = Some (r, w') ∧ log w' = log w ++ tr ∧
    (∀ k r0, (KMutate (AddService k), r0) ∈ tr →
       (k ∉ dom (kernel w)) ∧
       ∃ s, s ∈ state.GetServices (desired w) ∧ k = ToIpvsService s) ∧
    (∀ k r0, (KMutate (DeleteService k), r0) ∈ tr →
       k ∈ dom (kernel w) ∧
       ∀ s, s ∈ state.GetServices (desired w) → ToIpvsService s ≠ k) ∧
    (∀ r0, (KMutate KFlush, r0) ∉ tr).
Proof.
  intros Hm.
  destruct (post_Sync o w _
              (λ _ _ tr,
                 Forall (λ ev, justified (desired w) (kernel w) ev.1) tr)
              Hm (post_syncLocked_justified o _))
    as (r & w' & tr & Hrun & Hlog & _ & _ & HQ).
  - intros r w1 tr Hj _ _ _. cbn [desired kernel record_call set_mutex] in Hj.
    apply Forall_cons. split; [exact I |]. apply Forall_app.
    split; [exact Hj |]. apply Forall_cons. by split.
  - exists r, w', tr. split; [done |]. split; [done |].
    split; [| split].
    + intros k r0 Hin. exact (proj1 (Forall_forall _ _) HQ _ Hin).
    + intros k r0 Hin. exact (proj1 (Forall_forall _ _) HQ _ Hin).
    + intros r0 Hin. exact (proj1 (Forall_forall _ _) HQ _ Hin).
Qed.

Lemma Sync_changes_what_differs_witness :
  mutex world_stale = false ∧
  ∃ r w' tr,
    run calm Sync world_stale = Some (r, w') ∧
    log w' = log world_stale ++ tr ∧
    (∀ k r0, (KMutate (DeleteService k), r0) ∈ tr →
       k ∈ dom (kernel world_stale) ∧
       ∀ s, s ∈ state.GetServices (desired world_stale) →
            ToIpvsService s ≠ k).
Proof.
  split; [reflexivity |].
  destruct (Sync_changes_what_differs calm world_stale eq_refl)
    as (r & w' & tr & Hrun & Hlog & _ & Hdel & _).
  exists r, w', tr. split; [exact Hrun |]. split; [exact Hlog | exact Hdel].
Defined.

(** ** The functions of a pass, each on its own *)

Lemma apply_touches_only k0 m (t : Table) :
  touches_only k0 (KMutate m) →
  dom (apply_mutation m t) = dom t ∧
  ∀ k, k ≠ k0 → apply_mutation m t !! k = t !! k.
Proof.
  destruct m as [k | k | k d | k d |]; simpl; try done; intros ->;
    (split; [by rewrite dom_alter_L |]); intros k Hne;
    by rewrite lookup_alter_ne.
Qed.

Lemma replay_touches_only k0 tr (t : Table) :
  Forall (λ ev : Event, touches_only k0 ev.1) tr →
  dom (replay tr t) = dom t ∧ ∀ k, k ≠ k0 → replay tr t !! k = t !! k.
Proof.
  revert t. induction tr as [| [c r] tr IH]; intros t Htr; [done |].
  apply Forall_cons in Htr as [Hc Htr].
  change (replay ((c, r) :: tr) t) with (replay tr (replay [(c, r)] t)).
  destruct (IH (replay [(c, r)] t) Htr) as [Hd Ho].
  assert (H1 : dom (replay [(c, r)] t) = dom t ∧
               ∀ k, k ≠ k0 → replay [(c, r)] t !! k = t !! k).
  { destruct c as [| | | | | | | | m]; try done.
    destruct r as [err |]; [done |]. by apply apply_touches_only. }
  destruct H1 as [Hd1 Ho1]. rewrite Hd, Hd1. split; [done |].
  intros k Hne. by rewrite Ho, Ho1.
Qed.

(** [syncDestinations] always returns, and whatever it returns it has left
    the set of services and the destinations of every other service as they
    were, and the mutex alone. When it returns no error and the service is
    in the table, the destinations of the service are the desired ones. *)
Theorem syncDestinations_one_service o svc w :
  ∃ r w',
    run o (syncDestinations svc) w = Some (r, w') ∧
    mutex w' = mutex w ∧
    dom (kernel w') = dom (kernel w) ∧
    (∀ k, k ≠ ToIpvsService svc → kernel w' !! k = kernel w !! k) ∧
    (r = None → ToIpvsService svc ∈ dom (kernel w) →
     normalizedDestinations (liveDestinations (kernel w') svc)
     = normalizedDestinations (state.GetDestinations (desired w) svc)).
Proof.
  destruct (post_conj o _ _ _ _
              (post_syncDestinations_converges o svc w)
              (post_only_calls o (touches_only (ToIpvsService svc))
                 (syncDestinations svc) w
                 ltac:(repeat only_calls_step; by repeat split)))
    as (r & w' & tr & Hrun & _ & _ & Hk & Hc & Hm & Htr).
  exists r, w'. split; [done |]. split; [done |].
  destruct (replay_touches_only _ _ (kernel w) Htr) as [Hd Ho].
  rewrite Hk. split; [done |]. split; [done |].
  intros -> Hin. rewrite <- Hk. by apply Hc.
Qed.

(** [addServiceAndDestinations] stops at the first call that fails and
    takes nothing back. When adding the service fails, that is the one call
    made and the table is as it was. Otherwise the service is in the table
    with the destinations it had, if it was there, and those of a prefix of
    the given list; the prefix is the whole list when no error is
    returned. Other services are not touched. *)
Theorem addServiceAndDestinations_adds o svc dsts w :
  ∃ r w' tr,
    run o (addServiceAndDestinations svc dsts) w = Some (r, w') ∧
    log w' = log w ++ tr ∧
    match fault o (length (log w)) with
    | Some err =>
        r = Some err ∧ kernel w' = kernel w ∧
        tr = [(KMutate (AddService (ToIpvsService svc)), Some err)]
    | None =>
        ∃ done,
          done `prefix_of` dsts ∧ (r = None → done = dsts) ∧
          kernel w'
          = <[ToIpvsService svc :=
                default ∅ (kernel w !! ToIpvsService svc)
                ∪ list_to_set (ToIpvsDestination <$> done)]> (kernel w)
    end.
Proof.
  unfold addServiceAndDestinations, post.
  rewrite run_bind. unfold call. cbn [run handle].
  destruct (fault o (length (log w))) as [err |] eqn:Hf.
  { eexists _, _, _. cbn [run]. split; [reflexivity |].
    split; [reflexivity |]. done. }
  cbn [run].
  set (K := ToIpvsService svc).
  set (w0 := record_call _ None _).
  assert (H0 : kernel w0 = <[K := default ∅ (kernel w !! K) ∪ ∅]> (kernel w)).
  { subst w0. cbn [kernel record_call set_kernel apply_mutation].
    rewrite union_empty_r_L.
    destruct (kernel w !! K) as [ds |] eqn:HK; simpl; [| done].
    by rewrite insert_id. }
  destruct (post_forEach o
              (λ d, call (KMutate (AddDestination K (ToIpvsDestination d))))
              dsts w0
              (λ done w1 _,
                 kernel w1
                 = <[K := default ∅ (kernel w !! K)
                          ∪ list_to_set (ToIpvsDestination <$> done)]>
                     (kernel w))
              (λ r w1 _,
                 ∃ done, done `prefix_of` dsts ∧ (r = None → done = dsts) ∧
                   kernel w1
                   = <[K := default ∅ (kernel w !! K)
                            ∪ list_to_set (ToIpvsDestination <$> done)]>
                       (kernel w)))
    as (r & w' & tr & Hrun & Hlog & _ & _ & HQ).
  - exact H0.
  - intros done d rest w1 tr1 Hl HI. apply post_KMutate.
    + intros err. exists done. split; [by exists (d :: rest) |].
      split; [done |]. exact HI.
    + cbn [kernel record_call set_kernel apply_mutation]. rewrite HI.
      rewrite alter_insert_eq. f_equal. rewrite fmap_app. set_solver.
  - intros w1 tr1 HI. by exists dsts.
  - exists r, w', ((KMutate (AddService K), None) :: tr).
    split; [exact Hrun |]. split; [| exact HQ].
    rewrite Hlog. subst w0. cbn [log record_call set_kernel].
    by rewrite <- app_assoc.
Qed.

(** [getCurrentServicesSet] makes one call, the listing, and changes
    nothing. A failure of the listing is returned as it is. Otherwise the
    set holds the translation of every service of the table and nothing
    else, and translating it back gives the services of the table: no two
    of them fall together. *)
Theorem getCurrentServicesSet_lists_table o w :
  ∃ r w',
    run o getCurrentServicesSet w = Some (r, w') ∧
    kernel w' = kernel w ∧ mutex w' = mutex w ∧
    match r with
    | inl err =>
        fault o (length (log w)) = Some err ∧
        log w' = log w ++ [(KGetServices, Some err)]
    | inr X =>
        fault o (length (log w)) = None ∧
        log w' = log w ++ [(KGetServices, None)] ∧
        (∀ s, s ∈ X ↔ ∃ k, k ∈ dom (kernel w) ∧ s = FromService k) ∧
        set_map ToIpvsService X = dom (kernel w) ∧
        size X = size (dom (kernel w))
    end.
Proof.
  unfold getCurrentServicesSet, mbind, prog_bind. rewrite run_bind.
  unfold call. cbn [run handle].
  destruct (fault o (length (log w))) as [err |] eqn:Hf; cbn [run];
    eexists _, _; (split; [reflexivity |]); (split; [done |]);
    (split; [done |]); [done |].
  split; [done |]. split; [done |].
  set (X := foldl _ _ _).
  assert (HX : X = list_to_set (FromService <$> list_services (kernel w))).
  { subst X. unfold mapset.NewSet.
    by rewrite foldl_current_services, union_empty_r_L. }
  clearbody X. subst X.
  assert (Hmem : ∀ s, s ∈ (list_to_set (FromService <$> list_services (kernel w))
                             : gset Service.t)
                      ↔ ∃ k, k ∈ dom (kernel w) ∧ s = FromService k).
  { intros s. rewrite elem_of_list_to_set, list_elem_of_fmap.
    split; intros (k & H1 & H2).
    - exists k. split; [| done]. by apply elem_of_list_services.
    - exists k. split; [done |]. by apply elem_of_list_services. }
  split; [exact Hmem |].
  assert (Hback : (set_map ToIpvsService
                     (list_to_set (FromService <$> list_services (kernel w))
                        : gset Service.t) : gset gipvs.Service)
                  = dom (kernel w)).
  { apply set_eq. intros k. rewrite elem_of_map. split.
    - intros (s & -> & (k' & Hk' & ->)%Hmem).
      by rewrite ToIpvsService_FromService.
    - intros Hk. exists (FromService k).
      rewrite ToIpvsService_FromService. split; [done |].
      apply Hmem. by exists k. }
  split; [exact Hback |].
  unfold list_services.
  rewrite size_list_to_set, length_fmap; [reflexivity |].
  apply NoDup_fmap_2; [| apply NoDup_elements].
  intros k1 k2 Heq.
  by rewrite <- (ToIpvsService_FromService k1), Heq,
    ToIpvsService_FromService.
Qed.

(** ** The order of the phases *)

Section phases.
Context (o : Oracle).

(** A pass falls in two parts: the first removes no service, the second
    adds none. *)
Lemma post_syncLocked_phases w :
  post o syncLocked w (λ _ _ tr,
    ∃ tr1 tr2, tr = tr1 ++ tr2 ∧
      Forall (λ ev : Event, ¬ removes_service ev.1) tr1 ∧
      Forall (λ ev : Event, ¬ adds_service ev.1) tr2).
Proof.
  unfold syncLocked. do 4 post_step.
  { post_step. cbn [app]. eexists _, []. rewrite app_nil_r.
    split; [reflexivity |]. split; [| by apply Forall_nil].
    repeat (apply Forall_cons; split; [exact (λ H, H) |]).
    by apply Forall_nil. }
  do 3 post_step.
  eapply post_mono.
  { apply (post_only_calls o (λ c, ¬ removes_service c)).
    repeat only_calls_step; (split; [by split | exact (λ H, H)]). }
  intros [err |] w1 tr1 _ _ _ [_ H1].
  { post_step. rewrite app_nil_r. cbn [app]. eexists _, [].
    rewrite app_nil_r. split; [reflexivity |]. split; [| by apply Forall_nil].
    repeat (apply Forall_cons; split; [exact (λ H, H) |]). exact H1. }
  eapply post_mono.
  { apply (post_only_calls o (λ c, ¬ adds_service c)).
    repeat only_calls_step; (split; [by split | exact (λ H, H)]). }
  intros r w2 tr2 _ _ _ [_ H2]. cbn [app]. rewrite !app_comm_cons.
  eexists _, tr2. split; [reflexivity |]. split; [| exact H2].
  repeat (apply Forall_cons; split; [exact (λ H, H) |]). exact H1.
Qed.
End phases.

Lemma Sync_post_phases o w :
  mutex w = false →
  post o Sync w (λ _ _ tr,
    ∃ tr1 tr2, tr = tr1 ++ tr2 ∧
      Forall (λ ev : Event, ¬ removes_service ev.1) tr1 ∧
      Forall (λ ev : Event, ¬ adds_service ev.1) tr2).
Proof.
  intros Hm. eapply post_Sync; [done | apply post_syncLocked_phases |].
  intros r w1 tr (tr1 & tr2 & -> & H1 & H2) _ _ _.
  exists ((Lock, None) :: tr1), (tr2 ++ [(Unlock, None)]).
  split; [by rewrite <- app_assoc |]. split.
  - apply Forall_cons. split; [exact (λ H, H) | exact H1].
  - apply Forall_app. split; [exact H2 |].
    apply Forall_cons. split; [exact (λ H, H) | by apply Forall_nil].
Qed.

(** In a pass every addition of a service comes before every removal of
    one, and a removal is made only after all the additions of services
    have succeeded: when adding a service fails, nothing has been and
    nothing will be removed in this pass. *)
Theorem Sync_adds_before_removes o w :
  mutex w = false →
  ∃ r w' tr,
    run o Sync w = Some (r, w') ∧ log w' = log w ++ tr ∧
    ∀ i j k1 k2 r1 r2,
      tr !! i = Some (KMutate (AddService k1), r1) →
      tr !! j = Some (KMutate (DeleteService k2), r2) →
      i < j ∧ r1 = None.
Proof.
  intros Hm.
  destruct (post_conj o _ _ _ _ (Sync_post_phases o w Hm)
              (Sync_post_failfast o w Hm))
    as (r & w' & tr & Hrun & Hlog & _ & _ & Hph & Hff).
  exists r, w', tr. split; [done |]. split; [done |].
  intros i j k1 k2 r1 r2 Hi Hj.
  destruct Hph as (tr1 & tr2 & Htr & H1 & H2).
  assert (Hij : i < j).
  { rewrite Htr in Hi, Hj.
    assert (i < length tr1).
    { destruct (decide (i < length tr1)) as [| Hge]; [done |].
      assert (Hle : length tr1 ≤ i) by lia.
      rewrite lookup_app_r in Hi by exact Hle.
      apply list_elem_of_lookup_2 in Hi.
      by apply (proj1 (Forall_forall _ _) H2) in Hi. }
    assert (length tr1 ≤ j); [| lia].
    destruct (decide (length tr1 ≤ j)) as [| Hlt]; [done |].
    assert (Hlt' : j < length tr1) by lia.
    rewrite lookup_app_l in Hj by exact Hlt'.
    apply list_elem_of_lookup_2 in Hj.
    by apply (proj1 (Forall_forall _ _) H1) in Hj. }
  split; [exact Hij |].
  destruct r1 as [err |]; [| done]. exfalso.
  destruct Hff as (body & Hbody & Hff).
  destruct (failed_call_ends_pass r body (KMutate (AddService k1)) err ∅ Hff)
    as (_ & pre & Hpre & Hsucc & _).
  { pose proof (list_elem_of_lookup_2 _ _ _ Hi) as Hin.
    rewrite Hbody in Hin. exact Hin. }
  assert (Heq : tr = pre ++ [(KMutate (AddService k1), Some err);
                             (Unlock, None)])
    by (rewrite Hbody; exact Hpre).
  rewrite Heq in Hi, Hj.
  assert (length pre ≤ i).
  { destruct (decide (length pre ≤ i)) as [| Hlt]; [done |].
    assert (Hlt' : i < length pre) by lia.
    rewrite lookup_app_l in Hi by exact Hlt'.
    apply list_elem_of_lookup_2 in Hi.
    by apply (proj1 (Forall_forall _ _) Hsucc) in Hi. }
  assert (Hle : length pre ≤ j) by lia.
  rewrite lookup_app_r in Hj by exact Hle.
  destruct (j - length pre) as [| [| n]] eqn:Hn; [lia | |]; simpl in Hj;
    discriminate Hj.
Qed.

Lemma Sync_adds_before_removes_witness :
  mutex world_swap = false ∧
  ∃ r w' tr,
    run calm Sync world_swap = Some (r, w') ∧
    log w' = log world_swap ++ tr ∧
    ∀ i j k1 k2 r1 r2,
      tr !! i = Some (KMutate (AddService k1), r1) →
      tr !! j = Some (KMutate (DeleteService k2), r2) →
      i < j ∧ r1 = None.
Proof.
  split; [reflexivity |].
  exact (Sync_adds_before_removes calm world_swap eq_refl).
Defined.

(** A failed call is the last of a trace that fails fast. *)
Lemma failfast_last r (tr : list Event) i j c err ev :
  failfast r tr →
  tr !! i = Some (c, Some err) → tr !! j = Some ev → j ≤ i.
Proof.
  intros Hff Hi Hj. destruct r as [err0 |]; simpl in Hff.
  - destruct Hff as (pre & c0 & Htr & Hpre & _).
    assert (Hlen : length tr = S (length pre)).
    { rewrite Htr, length_app. simpl. lia. }
    apply lookup_lt_Some in Hj.
    assert (length pre ≤ i); [| lia].
    destruct (decide (length pre ≤ i)) as [| Hlt]; [done |].
    assert (Hlt' : i < length pre) by lia.
    rewrite Htr in Hi. rewrite lookup_app_l in Hi by exact Hlt'.
    apply list_elem_of_lookup_2 in Hi.
    by apply (proj1 (Forall_forall _ _) Hpre) in Hi.
  - apply list_elem_of_lookup_2 in Hi.
    by apply (proj1 (Forall_forall _ _) Hff) in Hi.
Qed.

Section destination_phases.
Context (o : Oracle).

Lemma post_syncDestinations_phases svc w :
  post o (syncDestinations svc) w (λ _ _ tr,
    ∃ tr1 tr2, tr = tr1 ++ tr2 ∧
      Forall (λ ev : Event, ¬ removes_destination ev.1) tr1 ∧
      Forall (λ ev : Event, ¬ adds_destination ev.1) tr2).
Proof.
  unfold syncDestinations. do 4 post_step.
  { post_step. cbn [app]. eexists _, []. rewrite app_nil_r.
    split; [reflexivity |]. split; [| by apply Forall_nil].
    repeat (apply Forall_cons; split; [exact (λ H, H) |]).
    by apply Forall_nil. }
  do 3 post_step.
  eapply post_mono.
  { apply (post_only_calls o (λ c, ¬ removes_destination c)).
    repeat only_calls_step; (split; [by split | exact (λ H, H)]). }
  intros [err |] w1 tr1 _ _ _ [_ H1].
  { post_step. rewrite app_nil_r. cbn [app]. eexists _, [].
    rewrite app_nil_r. split; [reflexivity |]. split; [| by apply Forall_nil].
    repeat (apply Forall_cons; split; [exact (λ H, H) |]). exact H1. }
  eapply post_mono.
  { apply (post_only_calls o (λ c, ¬ adds_destination c)).
    repeat only_calls_step; (split; [by split | exact (λ H, H)]). }
  intros r w2 tr2 _ _ _ [_ H2]. cbn [app]. rewrite !app_comm_cons.
  eexists _, tr2. split; [reflexivity |]. split; [| exact H2].
  repeat (apply Forall_cons; split; [exact (λ H, H) |]). exact H1.
Qed.
End destination_phases.

(** [syncDestinations] adds before it removes: every addition of a
    destination comes before every removal of one, and a removal is made
    only after all the additions have succeeded. When an addition fails, no
    destination of the service has been removed. *)
Theorem syncDestinations_adds_before_removes o svc w :
  ∃ r w' tr,
    run o (syncDestinations svc) w = Some (r, w') ∧ log w' = log w ++ tr ∧
    (∀ i j k1 d1 k2 d2 r1 r2,
       tr !! i = Some (KMutate (AddDestination k1 d1), r1) →
       tr !! j = Some (KMutate (DeleteDestination k2 d2), r2) →
       i < j ∧ r1 = None) ∧
    (∀ k d err,
       (KMutate (AddDestination k d), Some err) ∈ tr →
       r = Some err ∧ ∀ k' d' r', (KMutate (DeleteDestination k' d'), r') ∉ tr).
Proof.
  destruct (post_conj o _ _ _ _ (post_syncDestinations_phases o svc w)
              (post_syncDestinations_failfast o svc w))
    as (r & w' & tr & Hrun & Hlog & _ & _ & Hph & Hff).
  exists r, w', tr. split; [done |]. split; [done |].
  destruct Hph as (tr1 & tr2 & Htr & H1 & H2).
  assert (Hord : ∀ i j k1 d1 k2 d2 r1 r2,
            tr !! i = Some (KMutate (AddDestination k1 d1), r1) →
            tr !! j = Some (KMutate (DeleteDestination k2 d2), r2) →
            i < j ∧ r1 = None).
  { intros i j k1 d1 k2 d2 r1 r2 Hi Hj.
    assert (Hij : i < j).
    { rewrite Htr in Hi, Hj.
      assert (i < length tr1).
      { destruct (decide (i < length tr1)) as [| Hge]; [done |].
        assert (Hle : length tr1 ≤ i) by lia.
        rewrite lookup_app_r in Hi by exact Hle.
        apply list_elem_of_lookup_2 in Hi.
        by apply (proj1 (Forall_forall _ _) H2) in Hi. }
      assert (length tr1 ≤ j); [| lia].
      destruct (decide (length tr1 ≤ j)) as [| Hlt]; [done |].
      assert (Hlt' : j < length tr1) by lia.
      rewrite lookup_app_l in Hj by exact Hlt'.
      apply list_elem_of_lookup_2 in Hj.
      by apply (proj1 (Forall_forall _ _) H1) in Hj. }
    split; [exact Hij |]. destruct r1 as [err |]; [| done].
    pose proof (failfast_last _ _ _ _ _ _ _ Hff Hi Hj). lia. }
  split; [exact Hord |].
  intros k d err Hin. split.
  - destruct r as [err0 |]; simpl in Hff.
    + destruct Hff as (pre & c0 & Hpre & Hsucc & _).
      rewrite Hpre in Hin. apply elem_of_app in Hin as [Hin | Hin].
      * by apply (proj1 (Forall_forall _ _) Hsucc) in Hin.
      * apply list_elem_of_singleton in Hin. by injection Hin as _ ->.
    + by apply (proj1 (Forall_forall _ _) Hff) in Hin.
  - intros k' d' r' Hin'.
    apply list_elem_of_lookup_1 in Hin as [i Hi].
    apply list_elem_of_lookup_1 in Hin' as [j Hj].
    by destruct (Hord _ _ _ _ _ _ _ _ Hi Hj) as [_ ?].
Qed.

(** ** A pool of callers does not get stuck *)

Section progress.
Context (o : Oracle).

Lemma step_thread_length i ts w ts' w' :
  step_thread o i ts w = Some (ts', w') →
  length ts' = length ts ∧ i < length ts.
Proof.
  unfold step_thread. intros Hstep.
  destruct (ts !! i) as [[a | c k] |] eqn:Hi; try discriminate Hstep.
  destruct (handle o c w) as [[r w1] |]; [| discriminate Hstep].
  injection Hstep as <- _.
  split; [by rewrite length_insert | by eapply lookup_lt_Some].
Qed.

(** The holder of the mutex stays one of the goroutines. *)
Lemma pool_step_live h ts w i ts' w' :
  pool_live h ts w →
  step_thread o i ts w = Some (ts', w') →
  ∃ h', pool_live h' ts' w'.
Proof.
  intros [Hinv Hh] Hstep.
  destruct (pool_step o _ _ _ _ _ _ Hinv Hstep)
    as (c & r & h' & _ & Hd & Hinv').
  destruct (step_thread_length _ _ _ _ _ Hstep) as [Hlen Hi].
  exists h'. split; [done |]. intros j ->.
  apply lookup_lt_is_Some. rewrite Hlen.
  specialize (Hd [(j, (Unlock, None))]).
  assert (Hr : lock_discipline (Some j) [(j, (Unlock, None))] = true).
  { simpl. by rewrite bool_decide_true. }
  rewrite Hr in Hd. clear Hr.
  assert (Hold : h = Some j → j < length ts).
  { intros ->. by apply lookup_lt_is_Some, Hh. }
  destruct c; simpl in Hd;
    repeat match goal with
           | H : _ && _ = true |- _ => apply andb_true_iff in H as [? ?]
           | H : bool_decide _ = true |- _ => apply bool_decide_eq_true in H
           end;
    try discriminate; simplify_eq; first [assumption | by apply Hold].
Qed.

Lemma pool_run_live h sch ts w ts' w' :
  pool_live h ts w →
  run_schedule o sch ts w = Some (ts', w') →
  ∃ h', pool_live h' ts' w'.
Proof.
  revert h ts w. induction sch as [| i sch IH]; intros h ts w Hl Hrun.
  - injection Hrun as <- <-. by exists h.
  - simpl in Hrun.
    destruct (step_thread o i ts w) as [[ts1 w1] |] eqn:Hstep;
      [| discriminate Hrun].
    destruct (pool_step_live _ _ _ _ _ _ Hl Hstep) as [h1 Hl1].
    by apply (IH h1 ts1 w1).
Qed.

Lemma entering_or_finished (ts : list (Prog (option error))) :
  (∀ i p, ts !! i = Some p → entering p ∨ finished p) →
  Forall (λ p, finished p) ts ∨ ∃ i p, ts !! i = Some p ∧ entering p.
Proof.
  induction ts as [| p ts IH]; intros Hts; [left; constructor |].
  destruct (Hts 0 p eq_refl) as [He | Hf]; [right; by exists 0, p |].
  destruct IH as [Hall | (i & q & Hi & Hq)].
  - intros i q Hi. by apply (Hts (S i)).
  - left. by constructor.
  - right. by exists (S i), q.
Qed.

(** In a state of the pool that keeps the discipline, either every
    goroutine has returned and the mutex is free, or one of them can make
    its next call. *)
Lemma pool_progress h ts w :
  pool_live h ts w →
  (Forall (λ p, finished p) ts ∧ mutex w = false) ∨
  ∃ i ts' w', step_thread o i ts w = Some (ts', w').
Proof.
  intros [[Hm Hts] Hh]. destruct h as [i |].
  - right. destruct (Hh i eq_refl) as [p Hi].
    destruct (Hts i p Hi) as [Hcrit _]. specialize (Hcrit eq_refl).
    destruct p as [a | c k]; [done |]. destruct Hcrit as [HnL _].
    exists i. unfold step_thread. rewrite Hi.
    assert (Hsome : is_Some (handle o c w)).
    { destruct (decide (c = Unlock)) as [-> | HnU].
      - simpl. rewrite Hm. simpl. by eexists.
      - by apply handle_is_Some. }
    destruct Hsome as [[r w1] ->]. by eexists _, _.
  - assert (Hfree : mutex w = false) by done.
    destruct (entering_or_finished ts) as [Hall | (i & p & Hi & He)].
    + intros i p Hi. by apply (Hts i p Hi).
    + by left.
    + right. exists i. unfold step_thread. rewrite Hi.
      destruct p as [a | c k]; [done |]. destruct He as [-> _].
      simpl. rewrite Hfree. by eexists _, _.
Qed.
End progress.

(** Goroutines that all run [Sync] on one [Ipvs] value never block one
    another for good: however their calls have been scheduled so far, and
    whatever calls have failed, either all of them have returned and the
    mutex is free, or one of them can make its next call. The mutex is
    never left taken by a goroutine that has returned. *)
Theorem Sync_pool_not_stuck o sch ts w ts' w' :
  Forall (λ p, p = Sync) ts →
  mutex w = false →
  run_schedule o sch ts w = Some (ts', w') →
  (Forall (λ p, finished p) ts' ∧ mutex w' = false) ∨
  ∃ i ts'' w'', step_thread o i ts' w' = Some (ts'', w'').
Proof.
  intros Hts Hm Hrun.
  assert (Hl : pool_live None ts w).
  { split; [| done]. split; [done |]. intros i p Hi.
    assert (p = Sync) as ->.
    { apply list_elem_of_lookup_2 in Hi.
      exact (proj1 (Forall_forall _ _) Hts p Hi). }
    split; [done |]. intros _. left. apply entering_Sync. }
  destruct (pool_run_live o _ _ _ _ _ _ Hl Hrun) as [h' Hl'].
  by apply (pool_progress o h').
Qed.

Lemma Sync_pool_not_stuck_witness :
  ∃ ts' w',
    run_schedule (failing_at 5 "EIO") [0; 0; 0; 1; 0] [Sync; Sync] world_web
    = None ∧
    run_schedule (failing_at 5 "EIO") [0; 0; 0] [Sync; Sync] world_web
    = Some (ts', w') ∧
    ((Forall (λ p, finished p) ts' ∧ mutex w' = false) ∨
     ∃ i ts'' w'',
       step_thread (failing_at 5 "EIO") i ts' w' = Some (ts'', w'')).
Proof.
  assert (Hr : is_Some (run_schedule (failing_at 5 "EIO") [0; 0; 0]
                          [Sync; Sync] world_web)).
  { eexists. reflexivity. }
  destruct Hr as [[ts' w'] Hrun]. exists ts', w'.
  split; [reflexivity |]. split; [exact Hrun |].
  apply (Sync_pool_not_stuck (failing_at 5 "EIO") [0; 0; 0] [Sync; Sync]
           world_web ts' w').
  - repeat constructor.
  - reflexivity.
  - exact Hrun.
Defined.

(** ** The next pass after a failure *)

(** Recovery is the next pass. Whatever a pass did and returned, also one
    that failed half way, it leaves the engine ready: the next pass starts,
    returns, and when it returns no error the table agrees with the desired
    state, which the first pass has not changed. The desired state has the
    identity of its services unique. *)
Theorem Sync_recovers o1 o2 w r1 w1 :
  identity_unique (desired w) →
  run o1 Sync w = Some (r1, w1) →
  ∃ r2 w2,
    run o2 Sync w1 = Some (r2, w2) ∧
    (r2 = None →
     normalizedServices (liveServices (kernel w2))
       = normalizedServices (state.GetServices (desired w)) ∧
     ∀ s, s ∈ state.GetServices (desired w) →
       normalizedDestinations (liveDestinations (kernel w2) s)
         = normalizedDestinations (state.GetDestinations (desired w) s)).
Proof.
  intros Hu Hrun.
  assert (Hm : mutex w = false).
  { apply (Sync_needs_mutex o1 w). by rewrite Hrun. }
  destruct (post_elim o1 _ _ _ _ _ (Sync_post_unlocked o1 w Hm) Hrun)
    as (tr1 & _ & Hd1 & _ & Hm1).
  rewrite <- Hd1 in Hu.
  destruct (Sync_post_converges o2 w1 Hm1 Hu)
    as (r2 & w2 & tr2 & Hrun2 & _ & _ & _ & Hc).
  exists r2, w2. split; [done |]. intros ->. rewrite <- Hd1. by apply Hc.
Qed.

Lemma Sync_recovers_witness :
  ∃ w1 w2,
    run (failing_at 5 "EIO") Sync world_web = Some (Some "EIO", w1) ∧
    run calm Sync w1 = Some (None, w2) ∧
    converged desired_web (kernel w2).
Proof.
  assert (Hr : fst <$> run (failing_at 5 "EIO") Sync world_web
               = Some (Some "EIO")) by (vm_compute; reflexivity).
  apply fmap_Some in Hr as ([r1 w1] & Hrun1 & Hr1). cbn [fst] in Hr1.
  subst r1. exists w1.
  destruct (Sync_recovers (failing_at 5 "EIO") calm world_web _ w1
              identity_unique_web Hrun1) as (r2 & w2 & Hrun2 & Hc).
  assert (Hr : (λ rw : option error * World,
                  fst <$> run calm Sync rw.2)
               <$> run (failing_at 5 "EIO") Sync world_web
               = Some (Some None)) by (vm_compute; reflexivity).
  rewrite Hrun1 in Hr. cbn [fmap option_fmap option_map snd] in Hr.
  apply (inj Some) in Hr. rewrite Hrun2 in Hr.
  cbn [fmap option_fmap option_map fst] in Hr. apply (inj Some) in Hr.
  subst r2.
  exists w2. split; [exact Hrun1 |]. split; [exact Hrun2 |].
  exact (Hc eq_refl).
Defined.
